(** * pandabuffers: protobuf messages to pandas tables

    A shallow embedding of [pandabuffers/proto_to_pandas.py]:
    [proto_to_dict], [proto_normalize], [dicts_from_repeated_field],
    [explode_repeated], [explode_field] and [proto_explode].

    Messages are finite trees of fields; a Python [dict] is an association
    list in insertion order; the loops over [enumerate] thread the list they
    extend; a call that raises returns [Raise] with the exception, and the
    first exception ends the call.  The functions recurse on the message,
    as the code does: every recursive call is on a nested message or on an
    element of a repeated field. *)

From Stdlib Require Import List String Ascii ZArith Arith Bool Lia.
From Stdlib Require Import Sorting.Sorted Sorting.Permutation Sorting.Mergesort.
From Stdlib Require Import Structures.Orders.
Import ListNotations.

Local Open Scope string_scope.
Local Open Scope list_scope.

(** ** Data model *)

(** Values of the scalar protobuf field types that the code copies
    verbatim. *)
Inductive Scalar : Type :=
| SInt (z : Z)
| SStr (s : string)
| SBool (b : bool).

(** A protobuf message, as the code reads it: the ordered fields of its
    [DESCRIPTOR], each with the value [getattr] gives for the field's name.
    The constructor of a [FieldValue] carries what the code asks the field
    descriptor: [label] (repeated or not) and [message_type] (set or not). *)
Inductive Message : Type :=
| MkMessage (fields : list (string * FieldValue))
with FieldValue : Type :=
| FScalar (value : Scalar)
| FMessage (nested : Message)
| FRepScalar (elements : list Scalar)
| FRepMessage (elements : list Message).

Inductive Label : Type := LABEL_OPTIONAL | LABEL_REPEATED.

Definition label (v : FieldValue) : Label :=
  match v with
  | FScalar _ | FMessage _ => LABEL_OPTIONAL
  | FRepScalar _ | FRepMessage _ => LABEL_REPEATED
  end.

Definition message_type (v : FieldValue) : bool :=
  match v with
  | FMessage _ | FRepMessage _ => true
  | FScalar _ | FRepScalar _ => false
  end.

Definition fields (m : Message) : list (string * FieldValue) :=
  match m with MkMessage fs => fs end.

Definition field_names (m : Message) : list string := map fst (fields m).

(** [getattr(proto_message, name)] and [DESCRIPTOR.fields_by_name[name]]:
    the field of that name, if the message has one. *)
Fixpoint lookup_field (name : string) (fs : list (string * FieldValue))
  : option FieldValue :=
  match fs with
  | [] => None
  | (n, v) :: fs' => if String.eqb n name then Some v else lookup_field name fs'
  end.

Definition getattr (m : Message) (name : string) : option FieldValue :=
  lookup_field name (fields m).

(** Python values held in the row dictionaries: scalars and nested
    dictionaries.  A [dict] keeps its keys in insertion order. *)
#[warning="-register-all"]
Inductive PyVal : Type :=
| VScalar (s : Scalar)
| VDict (d : list (string * PyVal)).

Abbreviation Dict := (list (string * PyVal)).

Definition VInt (i : nat) : PyVal := VScalar (SInt (Z.of_nat i)).

Section Dicts.
Context {V : Type}.

(** [d[k]], when [k in d]. *)
Fixpoint dict_get (k : string) (d : list (string * V)) : option V :=
  match d with
  | [] => None
  | (k', v') :: d' => if String.eqb k' k then Some v' else dict_get k d'
  end.

(** [d[k] = v]: an existing key keeps its place and takes the new value, a
    new key goes last. *)
Fixpoint dict_set (k : string) (v : V) (d : list (string * V))
  : list (string * V) :=
  match d with
  | [] => [(k, v)]
  | (k', v') :: d' =>
      if String.eqb k' k then (k', v) :: d' else (k', v') :: dict_set k v d'
  end.

Definition dict_keys (d : list (string * V)) : list string := map fst d.
End Dicts.

(** Exceptions the code raises.  [AttributeError name] is the failure of
    [getattr(proto_message, name)] for a name that is no field of the message
    (for the name of a method of the message class the failure is the
    [KeyError name] of [fields_by_name[name]] one line later: either way the
    exception carries the name).  [ValueError msg] is the explicit [raise] of
    [explode_field]; [TypeError msg] is raised by pandas. *)
Inductive Exception : Type :=
| AttributeError (name : string)
| ValueError (msg : string)
| TypeError (msg : string).

Inductive result (A : Type) : Type :=
| Ok (a : A)
| Raise (e : Exception).
Arguments Ok {A} a.
Arguments Raise {A} e.

(** ** [proto_to_dict] *)

Fixpoint proto_to_dict (proto_message : Message) : Dict :=
  match proto_message with
  | MkMessage fs =>
      fold_left
        (fun proto_dict field =>
           match snd field with
           | FRepScalar _ | FRepMessage _ => proto_dict
           | FMessage nested =>
               dict_set (fst field) (VDict (proto_to_dict nested)) proto_dict
           | FScalar value => dict_set (fst field) (VScalar value) proto_dict
           end)
        fs []
  end.

(** The body of the loop of [proto_to_dict]. *)
Definition add_field (proto_dict : Dict) (field : string * FieldValue) : Dict :=
  match snd field with
  | FRepScalar _ | FRepMessage _ => proto_dict
  | FMessage nested =>
      dict_set (fst field) (VDict (proto_to_dict nested)) proto_dict
  | FScalar value => dict_set (fst field) (VScalar value) proto_dict
  end.

(** ** [str.partition(".")] *)

Definition dot : ascii := "."%char.

(** [s.partition(".")] gives the text before the first dot, the separator
    found and the text after it; without a dot, the whole string and two empty
    strings. *)
Fixpoint partition (s : string) : string * string * string :=
  match s with
  | EmptyString => ("", "", "")
  | String c s' =>
      if Ascii.eqb c dot then ("", ".", s')
      else let '(before, sep, after) := partition s' in
           (String c before, sep, after)
  end.

(** ** The exploding operations *)

(** [enumerate(xs)] *)
Definition enumerate {A : Type} (xs : list A) : list (nat * A) :=
  combine (seq 0 (List.length xs)) xs.

(** [dicts_from_repeated_field(repeated_message, field, current_path,
    index_path)]; [field] stands for the repeated field and its elements.  The
    function is only called on repeated fields. *)
Definition dicts_from_repeated_field
  (field : FieldValue) (current_path index_path : string) : list Dict :=
  match field with
  | FRepMessage repeated_message =>
      map (fun '(i, message) =>
             dict_set index_path (VInt i) (proto_to_dict message))
        (enumerate repeated_message)
  | FRepScalar repeated_message =>
      map (fun '(i, message) =>
             dict_set current_path (VScalar message)
               (dict_set index_path (VInt i) []))
        (enumerate repeated_message)
  | FScalar _ | FMessage _ => []
  end.

Section ExplodeRepeated.
(** The loop of [explode_repeated], from element number [i] on, over the
    function it calls on every element. *)
Variable explode_field : Message -> string -> string -> result (list Dict).

Fixpoint explode_repeated_from
  (i : nat) (repeated_message : list Message)
  (path_to_repeated_field index_path : string) (proto_list : list Dict)
  : result (list Dict) :=
  match repeated_message with
  | [] => Ok proto_list
  | message :: rest =>
      match explode_field message path_to_repeated_field index_path with
      | Raise e => Raise e
      | Ok m =>
          explode_repeated_from (S i) rest path_to_repeated_field index_path
            (proto_list ++ map (dict_set index_path (VInt i)) m)
      end
  end.
End ExplodeRepeated.

(** [explode_repeated] on a repeated field of scalars: [explode_field] on the
    first element fails at [getattr] (or at [.DESCRIPTOR] when the name
    happens to be an attribute of the Python scalar), an [AttributeError]
    either way, given here with the segment as its name; an empty field gives
    no rows. *)
Definition explode_repeated_scalars
  (repeated_message : list Scalar) (path_to_repeated_field : string)
  : result (list Dict) :=
  match repeated_message with
  | [] => Ok []
  | _ :: _ => Raise (AttributeError (fst (fst (partition path_to_repeated_field))))
  end.

Definition invalid_path (path_to_repeated_field current_path : string)
  : string :=
  ("Invalid path: " ++ path_to_repeated_field ++ ". " ++ current_path
     ++ " cannot be traversed.")%string.

(** [explode_field].  The inner loop finds the field named [current_path]:
    it is [getattr] and [fields_by_name] in one, so that the recursive calls
    are on parts of [proto_message]; [explode_field_eq] below states the body
    with [getattr] and [explode_repeated]. *)
Fixpoint explode_field
  (proto_message : Message) (path_to_repeated_field index_path : string)
  {struct proto_message} : result (list Dict) :=
  let '(current_path, _, path_to_repeated_field) :=
    partition path_to_repeated_field in
  let index_path := (index_path ++ "." ++ current_path)%string in
  match proto_message with
  | MkMessage fs =>
      (fix fields_by_name (fs : list (string * FieldValue)) :=
         match fs with
         | [] => Raise (AttributeError current_path)
         | (name, field) :: fs' =>
             if String.eqb name current_path then
               match field with
               | FRepMessage nested_message =>
                   if String.eqb path_to_repeated_field "" then
                     Ok (dicts_from_repeated_field field current_path index_path)
                   else
                     explode_repeated_from explode_field 0 nested_message
                       path_to_repeated_field index_path []
               | FRepScalar nested_message =>
                   if String.eqb path_to_repeated_field "" then
                     Ok (dicts_from_repeated_field field current_path index_path)
                   else
                     explode_repeated_scalars nested_message
                       path_to_repeated_field
               | FMessage nested_message =>
                   explode_field nested_message path_to_repeated_field
                     index_path
               | FScalar _ =>
                   Raise (ValueError
                            (invalid_path path_to_repeated_field current_path))
               end
             else fields_by_name fs'
         end) fs
  end.

Definition explode_repeated
  (repeated_message : list Message)
  (path_to_repeated_field index_path : string) : result (list Dict) :=
  explode_repeated_from explode_field 0 repeated_message
    path_to_repeated_field index_path [].

(** The loop of [proto_explode], from record number [i] on. *)
Fixpoint proto_explode_from
  (i : nat) (list_of_protos : list Message) (path_to_repeated_field : string)
  (proto_list : list Dict) : result (list Dict) :=
  match list_of_protos with
  | [] => Ok proto_list
  | proto :: rest =>
      match explode_field proto path_to_repeated_field "index" with
      | Raise e => Raise e
      | Ok proto_as_dicts =>
          proto_explode_from (S i) rest path_to_repeated_field
            (proto_list ++ map (dict_set "index." (VInt i)) proto_as_dicts)
      end
  end.

(** [proto_list] of [proto_explode] when its loop is over. *)
Definition proto_explode_rows
  (list_of_protos : list Message) (path_to_repeated_field : string)
  : result (list Dict) :=
  proto_explode_from 0 list_of_protos path_to_repeated_field [].

(** ** The table assembly of pandas *)

(** Modelled from the spec: pandas is not part of the repository.  The model
    covers what the two table builders ask of it: [json_normalize] on a list
    of dictionaries with default arguments (dotted-key flattening, columns the
    union of the row keys in order of first appearance, missing values
    null-filled, a sequential unnamed row index), [set_index] on a list of
    column names and the renaming of index levels. *)
Module Pandas.

(** A cell holds a scalar or is missing (NaN). *)
Definition Cell : Type := option Scalar.

Record FrameRow : Type := mkRow {
  index_label : list Cell;   (* one value per index level *)
  cells : list Cell    (* one value per column *)
}.

Record DataFrame : Type := mkFrame {
  index_names : list (option string);
  columns : list string;
  rows : list FrameRow
}.

(** The key under which a nested value is flattened. *)
Definition new_key (key_string key : string) : string :=
  if String.eqb key_string "" then key
  else (key_string ++ "." ++ key)%string.

Fixpoint normalise_json
  (data : PyVal) (key_string : string)
  (normalized_dict : list (string * Scalar)) : list (string * Scalar) :=
  match data with
  | VDict d =>
      fold_left
        (fun normalized_dict item =>
           normalise_json (snd item) (new_key key_string (fst item))
             normalized_dict)
        d normalized_dict
  | VScalar s => dict_set key_string s normalized_dict
  end.

Definition is_dict (v : PyVal) : bool :=
  match v with VDict _ => true | VScalar _ => false end.

(** [{**top_dict_, **nested_dict_}]: the top-level scalars first, then the
    flattened nested dictionaries. *)
Definition normalise_json_ordered (data : Dict) : list (string * Scalar) :=
  let top_dict_ :=
    flat_map (fun item =>
                match snd item with
                | VScalar s => [(fst item, s)]
                | VDict _ => []
                end) data in
  let nested_dict_ :=
    normalise_json
      (VDict (filter (fun item => is_dict (snd item)) data)) "" [] in
  fold_left (fun d item => dict_set (fst item) (snd item) d)
    nested_dict_ top_dict_.

Definition contains (name : string) (names : list string) : bool :=
  existsb (String.eqb name) names.

(** The columns of a frame built from dictionaries: every key, in order of
    first appearance. *)
Definition add_key (cols : list string) (k : string) : list string :=
  if contains k cols then cols else cols ++ [k].

Definition union_keys (records : list (list (string * Scalar)))
  : list string :=
  fold_left (fun cols record => fold_left add_key (dict_keys record) cols)
    records [].

Definition json_normalize (data : list Dict) : DataFrame :=
  let records := map normalise_json_ordered data in
  let cols := union_keys records in
  {| index_names := [None];
     columns := cols;
     rows :=
       map (fun '(i, record) =>
              mkRow [Some (SInt (Z.of_nat i))]
                (map (fun c => dict_get c record) cols))
         (enumerate records) |}.

(** The cell of a row under a column name. *)
Definition cell (df : DataFrame) (r : FrameRow) (c : string) : Cell :=
  match dict_get c (combine (columns df) (cells r)) with
  | Some v => v
  | None => None
  end.

(** [df.set_index(keys)] for a list of column names taken from
    [df.columns]: the columns become the levels of the row index and leave
    the data.  With an empty list the frame comes back with the index it had
    (pandas 3; earlier versions refuse the empty list with a [ValueError], so
    that the call on a frame without index columns raises in either version,
    here or in the renaming that follows). *)
Definition set_index (keys : list string) (df : DataFrame)
  : result DataFrame :=
  match keys with
  | [] => Ok df
  | _ :: _ =>
      let keep := filter (fun c => negb (contains c keys)) (columns df) in
      Ok {| index_names := map Some keys;
            columns := keep;
            rows :=
              map (fun r => mkRow (map (cell df r) keys)
                              (map (cell df r) keep))
                (rows df) |}
  end.

(** [df.set_index(df.index.rename(name))] on a single-level index. *)
Definition rename_index (name : string) (df : DataFrame) : DataFrame :=
  {| index_names := map (fun _ => Some name) (index_names df);
     columns := columns df;
     rows := rows df |}.

Definition rename_level (old new : string) (n : option string)
  : option string :=
  match n with
  | Some s => if String.eqb s old then Some new else Some s
  | None => None
  end.

(** [df.set_index(df.index.rename({old: new}))]: a mapping is accepted
    only by an index of several levels. *)
Definition rename_levels (old new : string) (df : DataFrame)
  : result DataFrame :=
  match index_names df with
  | [_] => Raise (TypeError "Index.name must be a hashable type")
  | names =>
      Ok {| index_names := map (rename_level old new) names;
            columns := columns df;
            rows := rows df |}
  end.



End Pandas.

(** [sorted] on strings. *)
Module StringOrder <: Orders.TotalLeBool.
Definition t := string.
Definition leb := String.leb.
Theorem leb_total : forall x y, leb x y = true \/ leb y x = true.
Proof. exact String.leb_total. Qed.
End StringOrder.

Module StringSort := Mergesort.Sort StringOrder.

Definition sorted (l : list string) : list string := StringSort.sort l.

(** ** [proto_normalize] and [proto_explode] *)

Definition proto_normalize (list_of_protos : list Message)
  : Pandas.DataFrame :=
  let protos_as_json := map proto_to_dict list_of_protos in
  let df := Pandas.json_normalize protos_as_json in
  Pandas.rename_index "index" df.

Definition bind {A B : Type} (r : result A) (k : A -> result B) : result B :=
  match r with
  | Ok a => k a
  | Raise e => Raise e
  end.

Notation "x <- r ;; k" := (bind r (fun x => k))
  (at level 61, r at next level, right associativity).

Definition proto_explode
  (list_of_protos : list Message) (path_to_repeated_field : string)
  : result Pandas.DataFrame :=
  proto_list <- proto_explode_rows list_of_protos path_to_repeated_field ;;
  let df := Pandas.json_normalize proto_list in
  let index_columns :=
    sorted (filter (String.prefix "index.") (Pandas.columns df)) in
  df <- Pandas.set_index index_columns df ;;
  Pandas.rename_levels "index." "index" df.

(** ** Notions the properties are stated with *)

Definition nonempty (s : string) : bool := negb (String.eqb s "").

Fixpoint distinct (names : list string) : bool :=
  match names with
  | [] => true
  | n :: names' => negb (existsb (String.eqb n) names') && distinct names'
  end.

(** What protobuf guarantees of a message type, here and in every message
    below: field names are not empty and no two fields share a name. *)
Fixpoint wf_message (m : Message) : bool :=
  match m with
  | MkMessage fs =>
      forallb (fun f => nonempty (fst f)) fs
      && distinct (map fst fs)
      && forallb
           (fun f =>
              match snd f with
              | FMessage nested => wf_message nested
              | FRepMessage elements => forallb wf_message elements
              | FScalar _ | FRepScalar _ => true
              end)
           fs
  end.

(** [len(repeated_message)] *)
Definition field_length (field : FieldValue) : nat :=
  match field with
  | FRepScalar elements => List.length elements
  | FRepMessage elements => List.length elements
  | FScalar _ | FMessage _ => 0
  end.

(** The data of element [i] of a repeated field named [current_path]: the
    flattened message, or the scalar under the field's name. *)
Definition element_data (field : FieldValue) (current_path : string) (i : nat)
  : option Dict :=
  match field with
  | FRepMessage elements => option_map proto_to_dict (nth_error elements i)
  | FRepScalar elements =>
      option_map (fun s => [(current_path, VScalar s)]) (nth_error elements i)
  | FScalar _ | FMessage _ => None
  end.

(** [resolves m path idx field cur rest ip]: walking the singular message
    fields that [path] names from [m] on, the resolution arrives at the
    repeated field [field], named [cur], with [rest] of the path left and
    [ip] the index path built so far. *)
Inductive resolves
  : Message -> string -> string -> FieldValue -> string -> string -> string
    -> Prop :=
| resolves_repeated m path idx cur sep rest field :
    partition path = (cur, sep, rest) ->
    getattr m cur = Some field ->
    label field = LABEL_REPEATED ->
    resolves m path idx field cur rest (idx ++ "." ++ cur)%string
| resolves_singular m path idx cur sep rest nested field c r ip :
    partition path = (cur, sep, rest) ->
    getattr m cur = Some (FMessage nested) ->
    resolves nested rest (idx ++ "." ++ cur)%string field c r ip ->
    resolves m path idx field c r ip.

(** [element_at m path idx levels data]: following [path] from [m] and
    taking, at each repetition level, the element whose position [levels]
    gives under that level's index key (outermost level first), one arrives at
    a terminal element with the data [data]. *)
Inductive element_at
  : Message -> string -> string -> list (string * nat) -> Dict -> Prop :=
| at_terminal m path idx cur sep field i data :
    partition path = (cur, sep, "") ->
    getattr m cur = Some field ->
    element_data field cur i = Some data ->
    element_at m path idx [((idx ++ "." ++ cur)%string, i)] data
| at_repeated m path idx cur sep rest elements i e levels data :
    partition path = (cur, sep, rest) ->
    rest <> "" ->
    getattr m cur = Some (FRepMessage elements) ->
    nth_error elements i = Some e ->
    element_at e rest (idx ++ "." ++ cur)%string levels data ->
    element_at m path idx (((idx ++ "." ++ cur)%string, i) :: levels) data
| at_singular m path idx cur sep rest nested levels data :
    partition path = (cur, sep, rest) ->
    getattr m cur = Some (FMessage nested) ->
    element_at nested rest (idx ++ "." ++ cur)%string levels data ->
    element_at m path idx levels data.

(** A row carries the positions of [levels] under their index keys and the
    element's data under every other key, and nothing else. *)
Definition row_of (levels : list (string * nat)) (data d : Dict) : Prop :=
  (forall k p, In (k, p) levels -> dict_get k d = Some (VInt p))
  /\ (forall k, ~ In k (map fst levels) -> dict_get k d = dict_get k data)
  /\ (forall k v,
         In (k, v) d ->
         (exists p, In (k, p) levels /\ v = VInt p) \/ In (k, v) data).

(** [calls m path idx m' path' idx']: the evaluation of
    [explode_field m path idx] comes to evaluate
    [explode_field m' path' idx'], no exception having been raised before. *)
Inductive calls
  : Message -> string -> string -> Message -> string -> string -> Prop :=
| calls_here m path idx : calls m path idx m path idx
| calls_singular m path idx cur sep rest nested m' path' idx' :
    partition path = (cur, sep, rest) ->
    getattr m cur = Some (FMessage nested) ->
    calls nested rest (idx ++ "." ++ cur)%string m' path' idx' ->
    calls m path idx m' path' idx'
| calls_element m path idx cur sep rest before e after m' path' idx' :
    partition path = (cur, sep, rest) ->
    rest <> "" ->
    getattr m cur = Some (FRepMessage (before ++ e :: after)) ->
    Forall (fun e0 => exists rows,
                explode_field e0 rest (idx ++ "." ++ cur)%string = Ok rows)
      before ->
    calls e rest (idx ++ "." ++ cur)%string m' path' idx' ->
    calls m path idx m' path' idx'.

Fixpoint has_dot (s : string) : bool :=
  match s with
  | EmptyString => false
  | String c s' => Ascii.eqb c dot || has_dot s'
  end.

(** The rows of a loop that stamps the rows of element number [i], [i+1],
    ... with the element's position under [key] and chains them. *)
Definition stamped (key : string) (i : nat) (rss : list (list Dict))
  : list Dict :=
  List.concat (map (fun '(j, rs) => map (dict_set key (VInt j)) rs)
                 (combine (seq i (List.length rss)) rss)).


(** [field.label == field.LABEL_REPEATED] *)
Definition repeated (field : FieldValue) : bool :=
  match label field with
  | LABEL_REPEATED => true
  | LABEL_OPTIONAL => false
  end.

(** [s.endswith(".")] *)
Fixpoint ends_with_dot (s : string) : bool :=
  match s with
  | EmptyString => false
  | String c EmptyString => Ascii.eqb c dot
  | String _ s' => ends_with_dot s'
  end.

(** The message that the singular message fields [segs] lead to, from [m]
    on. *)
Fixpoint descend (m : Message) (segs : list string) : option Message :=
  match segs with
  | [] => Some m
  | seg :: segs' =>
      match getattr m seg with
      | Some (FMessage nested) => descend nested segs'
      | _ => None
      end
  end.

(** The elements of repeated scalar fields, one field per record, in the
    order of the records and then of the elements: each with its position in
    its field and the position of its record. *)
Definition element_positions (vss : list (list Scalar))
  : list (nat * Scalar * nat) :=
  List.concat
    (map (fun '(j, vs) => map (fun '(i, v) => (i, v, j)) (enumerate vs))
       (enumerate vss)).

(** The rows of the record at position [i]: those stamped [i] under the
    top-level index key. *)
Definition has_index (i : nat) (d : Dict) : bool :=
  match dict_get "index." d with
  | Some (VScalar (SInt z)) => Z.eqb z (Z.of_nat i)
  | _ => false
  end.

(** The columns that the nested dictionaries of a row are flattened to: the
    keys of [nested_dict_] in [json_normalize]. *)
Definition nested_columns (d : Dict) : list string :=
  dict_keys
    (Pandas.normalise_json
       (VDict (filter (fun item => Pandas.is_dict (snd item)) d)) "" []).



(** ** The scenario of the specification *)

Module Scenario.
Definition record0 : Message :=
  MkMessage [("a", FScalar (SInt 1));
             ("b", FRepScalar [SInt 10; SInt 20]);
             ("c", FMessage (MkMessage [("d", FScalar (SStr "x"))]))].

Definition record1 : Message :=
  MkMessage [("a", FScalar (SInt 2));
             ("b", FRepScalar [SInt 30]);
             ("c", FMessage (MkMessage [("d", FScalar (SStr "y"))]))].

(** A record with two repetition levels: the repeated message field [a]
    whose elements have the repeated scalar field [b]. *)
Definition nested_record : Message :=
  MkMessage
    [("a", FRepMessage
             [MkMessage [("b", FRepScalar [SInt 10; SInt 20])];
              MkMessage [("b", FRepScalar [SInt 30])]])].




(** An order with two items.  Each item has the singular message field
    [index] (say, its entry in a catalogue), which has the scalar field
    [items]: flattened, this is the column "index.items", the name of the
    index key of the repeated field [items]. *)
Definition order : Message :=
  MkMessage
    [("items",
      FRepMessage
        [MkMessage
           [("index", FMessage (MkMessage [("items", FScalar (SInt 77))]))];
         MkMessage
           [("index", FMessage (MkMessage [("items", FScalar (SInt 88))]))]])].

(** An order in two parcels, of two items and of one.  The field [index] of
    an item has the scalar field [parcels]: flattened, the column
    "index.parcels", the name of the index key of the repeated field
    [parcels]. *)
Definition parcel_item (v : Z) : Message :=
  MkMessage [("index", FMessage (MkMessage [("parcels", FScalar (SInt v))]))].

Definition parcel_order : Message :=
  MkMessage
    [("parcels",
      FRepMessage
        [MkMessage [("items", FRepMessage [parcel_item 55; parcel_item 66])];
         MkMessage [("items", FRepMessage [parcel_item 77])]])].
End Scenario.

(** * Properties *)

(** ** Dictionaries *)

Section DictFacts.
Context {V : Type}.
Implicit Types (d : list (string * V)) (k : string) (v : V).

Lemma dict_get_set_same k v d : dict_get k (dict_set k v d) = Some v.
Proof.
  induction d as [|[k' v'] d IH]; simpl.
  - now rewrite String.eqb_refl.
  - destruct (String.eqb k' k) eqn:E; simpl; rewrite E; auto.
Qed.

Lemma dict_get_set_other k k' v d :
  k <> k' -> dict_get k' (dict_set k v d) = dict_get k' d.
Proof.
  intros Hne. induction d as [|[k0 v0] d IH]; simpl.
  - apply String.eqb_neq in Hne. now rewrite Hne.
  - destruct (String.eqb k0 k) eqn:E; simpl.
    + apply String.eqb_eq in E. subst k0.
      apply String.eqb_neq in Hne. now rewrite Hne.
    + now rewrite IH.
Qed.

Lemma dict_keys_set k k' v d :
  In k' (dict_keys (dict_set k v d)) <-> k' = k \/ In k' (dict_keys d).
Proof.
  unfold dict_keys. induction d as [|[k0 v0] d IH]; simpl.
  - intuition.
  - destruct (String.eqb k0 k) eqn:E; simpl.
    + apply String.eqb_eq in E. subst. intuition.
    + rewrite IH. intuition.
Qed.

Lemma dict_get_In k d :
  In k (dict_keys d) <-> exists v, dict_get k d = Some v.
Proof.
  unfold dict_keys. induction d as [|[k0 v0] d IH]; simpl.
  - split; [tauto | intros [v Hv]; discriminate].
  - destruct (String.eqb_spec k0 k) as [->|Hne].
    + split; eauto.
    + rewrite <- IH. intuition.
Qed.

Lemma dict_get_None k d : ~ In k (dict_keys d) <-> dict_get k d = None.
Proof.
  rewrite dict_get_In. destruct (dict_get k d) as [v|].
  - split; [intros H; exfalso; eauto | discriminate].
  - split; [reflexivity | intros _ [v Hv]; discriminate].
Qed.
End DictFacts.

(** ** Strings *)

Lemma length_append (a b : string) :
  String.length (a ++ b) = String.length a + String.length b.
Proof. induction a; simpl; auto. Qed.

Lemma append_assoc (a b c : string) : ((a ++ b) ++ c = a ++ (b ++ c))%string.
Proof. induction a; simpl; congruence. Qed.

Lemma append_empty_r (a : string) : (a ++ "")%string = a.
Proof. induction a; simpl; congruence. Qed.

(** An index path is never the index path it extends. *)
Lemma index_path_fresh (idx s : string) : (idx ++ "." ++ s)%string <> idx.
Proof.
  intros H. apply (f_equal String.length) in H.
  rewrite !length_append in H. simpl in H. lia.
Qed.

(** The field name that [partition] cuts off has no dot, so it is no index
    path. *)
Lemma has_dot_append (a b : string) :
  has_dot (a ++ b) = has_dot a || has_dot b.
Proof. induction a; simpl; auto. rewrite IHa. now rewrite orb_assoc. Qed.

Lemma partition_no_dot path cur sep rest :
  partition path = (cur, sep, rest) -> has_dot cur = false.
Proof.
  revert cur sep rest. induction path as [|c path IH]; simpl; intros cur sep rest H.
  - now inversion H.
  - destruct (Ascii.eqb c dot) eqn:E.
    + now inversion H.
    + destruct (partition path) as [[b s] a]. inversion H; subst. simpl.
      rewrite E. simpl. eapply IH. reflexivity.
Qed.

Lemma partition_spec path cur sep rest :
  partition path = (cur, sep, rest) ->
  (sep = "" /\ rest = "" /\ path = cur)
  \/ (sep = "." /\ path = (cur ++ "." ++ rest)%string).
Proof.
  revert cur sep rest. induction path as [|c path IH]; simpl; intros cur sep rest H.
  - inversion H. auto.
  - destruct (Ascii.eqb c dot) eqn:E.
    + apply Ascii.eqb_eq in E. inversion H; subst. right. auto.
    + destruct (partition path) as [[b s] a]. inversion H; subst.
      destruct (IH _ _ _ eq_refl) as [(-> & -> & ->)|(-> & ->)]; auto.
Qed.

Lemma index_path_not_field idx path cur sep rest :
  partition path = (cur, sep, rest) -> (idx ++ "." ++ cur)%string <> cur.
Proof.
  intros H E. apply partition_no_dot in H.
  rewrite <- E, has_dot_append in H. simpl in H.
  rewrite orb_true_r in H. discriminate.
Qed.

(** ** Induction on messages *)

Section MessageInduction.
Variable P : Message -> Prop.

Hypothesis step :
  forall fs,
    Forall (fun f =>
              match snd f with
              | FMessage nested => P nested
              | FRepMessage elements => Forall P elements
              | FScalar _ | FRepScalar _ => True
              end) fs ->
    P (MkMessage fs).

Lemma message_induction : forall m, P m.
Proof.
  fix IH 1. intros [fs]. apply step.
  induction fs as [|[n v] fs IHfs]; constructor; [|exact IHfs].
  destruct v as [s|nested|ss|elements]; simpl; auto.
  induction elements as [|e elements IHe]; constructor; auto.
Qed.
End MessageInduction.

Lemma lookup_field_In name fs v :
  lookup_field name fs = Some v -> In (name, v) fs.
Proof.
  induction fs as [|[n w] fs IH]; simpl; [discriminate|].
  destruct (String.eqb_spec n name) as [->|Hne].
  - intros [= ->]. now left.
  - intros H. right. auto.
Qed.

(** ** The equations of the exploding operations *)

Lemma explode_field_eq m path idx :
  explode_field m path idx =
  let '(current_path, _, rest) := partition path in
  let index_path := (idx ++ "." ++ current_path)%string in
  match getattr m current_path with
  | None => Raise (AttributeError current_path)
  | Some field =>
      match field with
      | FRepMessage nested_message =>
          if String.eqb rest "" then
            Ok (dicts_from_repeated_field field current_path index_path)
          else explode_repeated nested_message rest index_path
      | FRepScalar nested_message =>
          if String.eqb rest "" then
            Ok (dicts_from_repeated_field field current_path index_path)
          else explode_repeated_scalars nested_message rest
      | FMessage nested_message => explode_field nested_message rest index_path
      | FScalar _ => Raise (ValueError (invalid_path rest current_path))
      end
  end.
Proof.
  destruct m as [fs]. unfold getattr. simpl.
  destruct (partition path) as [[cur sep] rest].
  induction fs as [|[n v] fs IH]; simpl; [reflexivity|].
  destruct (String.eqb n cur); [|exact IH].
  destruct v; reflexivity.
Qed.

Lemma stamped_nil key i : stamped key i [] = [].
Proof. reflexivity. Qed.

Lemma stamped_cons key i rs rss :
  stamped key i (rs :: rss)
  = map (dict_set key (VInt i)) rs ++ stamped key (S i) rss.
Proof. reflexivity. Qed.

Section Loops.
Variable f : Message -> string -> string -> result (list Dict).

Lemma explode_repeated_from_Ok ms : forall i path idx acc rows,
  explode_repeated_from f i ms path idx acc = Ok rows <->
  exists rss,
    Forall2 (fun m rs => f m path idx = Ok rs) ms rss
    /\ rows = acc ++ stamped idx i rss.
Proof.
  induction ms as [|m ms IH]; intros i path idx acc rows; simpl.
  - split.
    + intros [= <-]. exists []. split; [constructor|].
      now rewrite stamped_nil, app_nil_r.
    + intros (rss & HF & ->). inversion HF; subst.
      now rewrite stamped_nil, app_nil_r.
  - destruct (f m path idx) as [rs|e] eqn:E.
    + rewrite IH. split.
      * intros (rss & HF & ->). exists (rs :: rss). split; [now constructor|].
        now rewrite stamped_cons, app_assoc.
      * intros (rss & HF & ->). inversion HF as [|? rs' ? rss' Hm HF']; subst.
        rewrite E in Hm. injection Hm as <-.
        exists rss'. split; [assumption|].
        now rewrite stamped_cons, app_assoc.
    + split; [discriminate|].
      intros (rss & HF & _). inversion HF; subst. congruence.
Qed.

Lemma explode_repeated_from_Raise before e after : forall i path idx acc err,
  Forall (fun e0 => exists rows, f e0 path idx = Ok rows) before ->
  f e path idx = Raise err ->
  explode_repeated_from f i (before ++ e :: after) path idx acc = Raise err.
Proof.
  induction before as [|b before IH]; intros i path idx acc err HF He; simpl.
  - now rewrite He.
  - inversion HF as [|? ? [rows Hb] HF']; subst. rewrite Hb. now apply IH.
Qed.
End Loops.

Lemma proto_explode_from_Ok ms : forall i path acc rows,
  proto_explode_from i ms path acc = Ok rows <->
  exists rss,
    Forall2 (fun m rs => explode_field m path "index" = Ok rs) ms rss
    /\ rows = acc ++ stamped "index." i rss.
Proof.
  induction ms as [|m ms IH]; intros i path acc rows; simpl.
  - split.
    + intros [= <-]. exists []. split; [constructor|].
      now rewrite stamped_nil, app_nil_r.
    + intros (rss & HF & ->). inversion HF; subst.
      now rewrite stamped_nil, app_nil_r.
  - destruct (explode_field m path "index") as [rs|e] eqn:E.
    + rewrite IH. split.
      * intros (rss & HF & ->). exists (rs :: rss). split; [now constructor|].
        now rewrite stamped_cons, app_assoc.
      * intros (rss & HF & ->). inversion HF as [|? rs' ? rss' Hm HF']; subst.
        rewrite E in Hm. injection Hm as <-.
        exists rss'. split; [assumption|].
        now rewrite stamped_cons, app_assoc.
    + split; [discriminate|].
      intros (rss & HF & _). inversion HF; subst. congruence.
Qed.

Lemma proto_explode_from_Raise before m after : forall i path acc err,
  Forall (fun m0 => exists rows, explode_field m0 path "index" = Ok rows)
    before ->
  explode_field m path "index" = Raise err ->
  proto_explode_from i (before ++ m :: after) path acc = Raise err.
Proof.
  induction before as [|b before IH]; intros i path acc err HF He; simpl.
  - now rewrite He.
  - inversion HF as [|? ? [rows Hb] HF']; subst. rewrite Hb. now apply IH.
Qed.

(** ** Positions in [enumerate] and in stamped rows *)

Lemma In_combine_seq {A : Type} (l : list A) : forall i j x,
  In (j, x) (combine (seq i (List.length l)) l) <->
  i <= j /\ nth_error l (j - i) = Some x.
Proof.
  induction l as [|y l IH]; intros i j x; simpl.
  - split; [tauto|]. intros [_ H]. destruct (j - i); discriminate.
  - rewrite IH. split.
    + intros [[= <- <-]|[Hle Hn]].
      * rewrite Nat.sub_diag. auto.
      * split; [lia|]. replace (j - i) with (S (j - S i)) by lia. exact Hn.
    + intros [Hle Hn]. destruct (Nat.eq_dec i j) as [->|Hne].
      * rewrite Nat.sub_diag in Hn. injection Hn as ->. now left.
      * right. split; [lia|].
        replace (j - i) with (S (j - S i)) in Hn by lia. exact Hn.
Qed.

Lemma In_enumerate {A : Type} (l : list A) i x :
  In (i, x) (enumerate l) <-> nth_error l i = Some x.
Proof.
  unfold enumerate. rewrite In_combine_seq, Nat.sub_0_r.
  split; [tauto | intros H; split; [lia | exact H]].
Qed.

Lemma In_stamped key rss : forall i d,
  In d (stamped key i rss) <->
  exists j rs d0,
    nth_error rss j = Some rs /\ In d0 rs
    /\ d = dict_set key (VInt (i + j)) d0.
Proof.
  induction rss as [|rs rss IH]; intros i d.
  - rewrite stamped_nil. split; [intros []|].
    intros (j & rs & d0 & Hn & _). destruct j; discriminate.
  - rewrite stamped_cons, in_app_iff, in_map_iff, IH. split.
    + intros [(d0 & <- & Hin)|(j & rs' & d0 & Hn & Hin & ->)].
      * exists 0, rs, d0. rewrite Nat.add_0_r. auto.
      * exists (S j), rs', d0. rewrite Nat.add_succ_r. auto.
    + intros (j & rs' & d0 & Hn & Hin & ->). destruct j as [|j]; simpl in Hn.
      * injection Hn as <-. left. exists d0. rewrite Nat.add_0_r. auto.
      * right. exists j, rs', d0. rewrite Nat.add_succ_r. auto.
Qed.

Lemma Forall2_nth_error_r {A B : Type} (R : A -> B -> Prop) l l' :
  Forall2 R l l' ->
  forall j y, nth_error l' j = Some y ->
  exists x, nth_error l j = Some x /\ R x y.
Proof.
  induction 1 as [|x y l l' HR HF IH]; intros j z Hn.
  - destruct j; discriminate.
  - destruct j as [|j]; simpl in *.
    + injection Hn as <-. eauto.
    + eauto.
Qed.

Lemma Forall2_nth_error_l {A B : Type} (R : A -> B -> Prop) l l' :
  Forall2 R l l' ->
  forall j x, nth_error l j = Some x ->
  exists y, nth_error l' j = Some y /\ R x y.
Proof.
  induction 1 as [|x y l l' HR HF IH]; intros j z Hn.
  - destruct j; discriminate.
  - destruct j as [|j]; simpl in *.
    + injection Hn as <-. eauto.
    + eauto.
Qed.

(** ** Rows and the elements they come from *)

Lemma element_at_keys m path idx levels data :
  element_at m path idx levels data ->
  forall k, In k (map fst levels) -> exists s, k = (idx ++ "." ++ s)%string.
Proof.
  induction 1 as [m path idx cur sep field i data Hp Hg Hd
                 |m path idx cur sep rest elements i e levels data Hp Hr Hg Hn He IH
                 |m path idx cur sep rest nested levels data Hp Hg He IH];
    intros k Hk; simpl in Hk.
  - destruct Hk as [<-|[]]. now exists cur.
  - destruct Hk as [<-|Hk]; [now exists cur|].
    destruct (IH k Hk) as [s ->]. exists (cur ++ "." ++ s)%string.
    now rewrite !append_assoc.
  - destruct (IH k Hk) as [s ->]. exists (cur ++ "." ++ s)%string.
    now rewrite !append_assoc.
Qed.

Lemma In_dict_set {V : Type} k (v : V) d k' v' :
  In (k', v') (dict_set k v d) -> (k' = k /\ v' = v) \/ In (k', v') d.
Proof.
  induction d as [|[k0 v0] d IH]; simpl.
  - intros [[= <- <-]|[]]. now left.
  - destruct (String.eqb_spec k0 k) as [->|Hne]; simpl.
    + intros [[= <- <-]|H]; auto.
    + intros [H|H]; [auto|]. destruct (IH H); auto.
Qed.

Lemma row_of_scalar cur ip i x :
  ip <> cur ->
  row_of [(ip, i)] [(cur, VScalar x)]
    (dict_set cur (VScalar x) (dict_set ip (VInt i) [])).
Proof.
  intros Hne. split; [|split].
  - intros k p [[= <- <-]|[]].
    rewrite dict_get_set_other by (apply not_eq_sym; exact Hne).
    apply dict_get_set_same.
  - intros k Hk. simpl in Hk.
    destruct (String.eqb_spec cur k) as [<-|Hck].
    + rewrite dict_get_set_same. simpl. now rewrite String.eqb_refl.
    + rewrite dict_get_set_other by assumption.
      rewrite dict_get_set_other by tauto. simpl.
      apply String.eqb_neq in Hck. now rewrite Hck.
  - intros k v H. apply In_dict_set in H as [[-> ->]|H]; [right; now left|].
    apply In_dict_set in H as [[-> ->]|[]]. left. exists i. split; [now left|].
    reflexivity.
Qed.

Lemma row_of_message ip i data :
  row_of [(ip, i)] data (dict_set ip (VInt i) data).
Proof.
  split; [|split].
  - intros k p [[= <- <-]|[]]. apply dict_get_set_same.
  - intros k Hk. simpl in Hk. apply dict_get_set_other. tauto.
  - intros k v H. apply In_dict_set in H as [[-> ->]|H]; [left|now right].
    exists i. split; [now left | reflexivity].
Qed.

(** The rows of a terminal repeated field are the rows of its elements. *)
Lemma terminal_rows_sound field cur ip d :
  ip <> cur ->
  In d (dicts_from_repeated_field field cur ip) ->
  exists i data,
    element_data field cur i = Some data /\ row_of [(ip, i)] data d.
Proof.
  intros Hne.
  destruct field as [s|nested|elements|elements]; simpl; try tauto;
    rewrite in_map_iff; intros ([i x] & <- & Hin);
    apply In_enumerate in Hin.
  - exists i, [(cur, VScalar x)]. simpl. rewrite Hin.
    split; [reflexivity | now apply row_of_scalar].
  - exists i, (proto_to_dict x). simpl. rewrite Hin.
    split; [reflexivity | apply row_of_message].
Qed.

Lemma terminal_rows_complete field cur ip i data :
  ip <> cur ->
  element_data field cur i = Some data ->
  exists d,
    In d (dicts_from_repeated_field field cur ip) /\ row_of [(ip, i)] data d.
Proof.
  intros Hne.
  destruct field as [s|nested|elements|elements]; simpl; try discriminate;
    destruct (nth_error elements i) as [x|] eqn:Hn; try discriminate;
    intros [= <-]; apply In_enumerate in Hn.
  - exists (dict_set cur (VScalar x) (dict_set ip (VInt i) [])). split.
    + apply in_map_iff. now exists (i, x).
    + now apply row_of_scalar.
  - exists (dict_set ip (VInt i) (proto_to_dict x)). split.
    + apply in_map_iff. now exists (i, x).
    + apply row_of_message.
Qed.

Lemma row_of_stamped ip i levels data d0 :
  (forall k, In k (map fst levels) -> k <> ip) ->
  row_of levels data d0 ->
  row_of ((ip, i) :: levels) data (dict_set ip (VInt i) d0).
Proof.
  intros Hfresh (Hl & Hd & He). split; [|split].
  - intros k p [[= <- <-]|Hin]; [apply dict_get_set_same|].
    rewrite dict_get_set_other; [now apply Hl|].
    intros ->. apply (Hfresh k); [|reflexivity].
    apply in_map_iff. now exists (k, p).
  - intros k Hk. simpl in Hk.
    rewrite dict_get_set_other by tauto. apply Hd. tauto.
  - intros k v H. apply In_dict_set in H as [[-> ->]|H].
    + left. exists i. split; [now left | reflexivity].
    + destruct (He _ _ H) as [(p & Hp & ->)|Hdata]; [left|now right].
      exists p. split; [now right | reflexivity].
Qed.

Lemma inner_keys_fresh e rest ip levels data :
  element_at e rest ip levels data ->
  forall k, In k (map fst levels) -> k <> ip.
Proof.
  intros He k Hk. destruct (element_at_keys _ _ _ _ _ He k Hk) as [s ->].
  apply index_path_fresh.
Qed.

(** Every row of [explode_field] is the row of an element. *)
Lemma explode_field_sound : forall m path idx rows,
  explode_field m path idx = Ok rows ->
  forall d, In d rows ->
  exists levels data, element_at m path idx levels data /\ row_of levels data d.
Proof.
  induction m as [fs IH] using message_induction.
  intros path idx rows. rewrite explode_field_eq.
  destruct (partition path) as [[cur sep] rest] eqn:Hp.
  destruct (getattr (MkMessage fs) cur) as [field|] eqn:Hg; [|discriminate].
  pose proof (lookup_field_In _ _ _ Hg) as Hin.
  rewrite Forall_forall in IH. specialize (IH _ Hin). simpl in IH.
  destruct field as [s|nested|elements|elements]; try discriminate.
  - intros Hrows d Hd.
    destruct (IH _ _ _ Hrows d Hd) as (levels & data & He & Hrow).
    exists levels, data. split; [|assumption].
    eapply at_singular; eassumption.
  - destruct (String.eqb_spec rest "") as [->|Hrest].
    + intros Hrows d Hd.
      replace rows
        with (dicts_from_repeated_field (FRepScalar elements) cur
                (idx ++ "." ++ cur)%string) in Hd by congruence.
      apply terminal_rows_sound in Hd as (i & data & Hdata & Hrow);
        [|eapply index_path_not_field; eassumption].
      exists [((idx ++ "." ++ cur)%string, i)], data. split; [|assumption].
      eapply at_terminal; eassumption.
    + destruct elements; simpl; [|discriminate].
      intros [= <-] d [].
  - destruct (String.eqb_spec rest "") as [->|Hrest].
    + intros Hrows d Hd.
      replace rows
        with (dicts_from_repeated_field (FRepMessage elements) cur
                (idx ++ "." ++ cur)%string) in Hd by congruence.
      apply terminal_rows_sound in Hd as (i & data & Hdata & Hrow);
        [|eapply index_path_not_field; eassumption].
      exists [((idx ++ "." ++ cur)%string, i)], data. split; [|assumption].
      eapply at_terminal; eassumption.
    + unfold explode_repeated. rewrite explode_repeated_from_Ok.
      intros (rss & HF & ->) d Hd. simpl in Hd.
      apply In_stamped in Hd as (j & rs & d0 & Hj & Hd0 & ->). simpl.
      destruct (Forall2_nth_error_r _ _ _ HF _ _ Hj) as (e & He & Hrs).
      rewrite Forall_forall in IH.
      destruct (IH e (nth_error_In _ _ He) _ _ _ Hrs d0 Hd0)
        as (levels & data & Hat & Hrow).
      exists (((idx ++ "." ++ cur)%string, j) :: levels), data. split.
      * eapply at_repeated; eassumption.
      * apply row_of_stamped; [|assumption].
        eapply inner_keys_fresh; eassumption.
Qed.

(** Every element reached has its row, when [explode_field] returns. *)
Lemma explode_field_complete m path idx levels data :
  element_at m path idx levels data ->
  forall rows, explode_field m path idx = Ok rows ->
  exists d, In d rows /\ row_of levels data d.
Proof.
  induction 1 as [m path idx cur sep field i data Hp Hg Hd
                 |m path idx cur sep rest elements i e levels data Hp Hr Hg Hn He IH
                 |m path idx cur sep rest nested levels data Hp Hg He IH];
    intros rows; rewrite explode_field_eq, Hp, Hg.
  - assert (Hrows : rows = dicts_from_repeated_field field cur
                             (idx ++ "." ++ cur)%string -> 
                    exists d, In d rows /\ row_of [((idx ++ "." ++ cur)%string, i)] data d).
    { intros ->. apply terminal_rows_complete; [|assumption].
      eapply index_path_not_field; eassumption. }
    destruct field; try discriminate; simpl; intros [= <-]; now apply Hrows.
  - apply String.eqb_neq in Hr. rewrite Hr.
    unfold explode_repeated. rewrite explode_repeated_from_Ok.
    intros (rss & HF & ->).
    destruct (Forall2_nth_error_l _ _ _ HF _ _ Hn) as (rs & Hrs & Hok).
    destruct (IH _ Hok) as (d0 & Hd0 & Hrow).
    exists (dict_set (idx ++ "." ++ cur)%string (VInt i) d0). split.
    + simpl. apply In_stamped. exists i, rs, d0. auto.
    + apply row_of_stamped; [|assumption].
      eapply inner_keys_fresh; eassumption.
  - intros Hrows. destruct (IH _ Hrows) as (d & Hd & Hrow). eauto.
Qed.

(** ** Well-formed messages *)

Lemma distinct_NoDup names : distinct names = true -> NoDup names.
Proof.
  induction names as [|n names IH]; simpl; [constructor|].
  rewrite andb_true_iff, negb_true_iff. intros [Hn Hd].
  constructor; [|auto].
  intros Hin. assert (existsb (String.eqb n) names = true); [|congruence].
  apply existsb_exists. exists n. split; [assumption | apply String.eqb_refl].
Qed.

Lemma wf_message_fields fs :
  wf_message (MkMessage fs) = true ->
  NoDup (map fst fs)
  /\ ~ In "" (map fst fs)
  /\ (forall n nested, In (n, FMessage nested) fs -> wf_message nested = true)
  /\ (forall n elements e,
         In (n, FRepMessage elements) fs -> In e elements ->
         wf_message e = true).
Proof.
  simpl. rewrite !andb_true_iff, !forallb_forall.
  intros [[Hne Hd] Hsub]. repeat split.
  - now apply distinct_NoDup.
  - rewrite in_map_iff. intros ([n v] & Hn & Hin). simpl in Hn. subst n.
    specialize (Hne _ Hin). discriminate.
  - intros n nested Hin. exact (Hsub _ Hin).
  - intros n elements e Hin He. specialize (Hsub _ Hin). simpl in Hsub.
    rewrite forallb_forall in Hsub. auto.
Qed.

Lemma getattr_In m name v : getattr m name = Some v -> In (name, v) (fields m).
Proof. apply lookup_field_In. Qed.

(** With distinct names, [getattr] by a field's name is that field. *)
Lemma getattr_field m name v :
  NoDup (field_names m) -> In (name, v) (fields m) -> getattr m name = Some v.
Proof.
  unfold getattr, field_names. induction (fields m) as [|[n w] fs IH]; simpl.
  - tauto.
  - intros Hnd Hin. inversion Hnd as [|? ? Hn Hnd']; subst.
    destruct Hin as [[= -> ->]|Hin].
    + now rewrite String.eqb_refl.
    + destruct (String.eqb_spec n name) as [->|Hne]; [|auto].
      exfalso. apply Hn. apply in_map_iff. now exists (name, v).
Qed.

Lemma wf_getattr_nonempty m cur v :
  wf_message m = true -> getattr m cur = Some v -> cur <> "".
Proof.
  destruct m as [fs]. intros Hwf Hg ->.
  apply wf_message_fields in Hwf as (_ & Hne & _).
  apply getattr_In in Hg. apply Hne. apply in_map_iff. now exists ("", v).
Qed.

Lemma wf_getattr_nested m cur nested :
  wf_message m = true -> getattr m cur = Some (FMessage nested) ->
  wf_message nested = true.
Proof.
  destruct m as [fs]. intros Hwf Hg.
  apply wf_message_fields in Hwf as (_ & _ & Hn & _).
  apply getattr_In in Hg. eauto.
Qed.

Lemma wf_getattr_element m cur elements e :
  wf_message m = true -> getattr m cur = Some (FRepMessage elements) ->
  In e elements -> wf_message e = true.
Proof.
  destruct m as [fs]. intros Hwf Hg He.
  apply wf_message_fields in Hwf as (_ & _ & _ & Hn).
  apply getattr_In in Hg. eauto.
Qed.

(** ** The names of the index keys *)

(** The index key of a repetition level is the index path the traversal
    started from, a dot, and the path down to the field of that level. *)
Lemma element_at_key_path m path idx levels data :
  element_at m path idx levels data ->
  wf_message m = true ->
  forall k, In k (map fst levels) ->
  exists p,
    k = (idx ++ "." ++ p)%string /\ p <> ""
    /\ (path = p \/ exists rest, path = (p ++ "." ++ rest)%string).
Proof.
  induction 1 as [m path idx cur sep field i data Hp Hg Hd
                 |m path idx cur sep rest elements i e levels data Hp Hr Hg Hn He IH
                 |m path idx cur sep rest nested levels data Hp Hg He IH];
    intros Hwf k Hk; simpl in Hk;
    pose proof (wf_getattr_nonempty _ _ _ Hwf Hg) as Hcur;
    pose proof (partition_spec _ _ _ _ Hp) as Hpath.
  - destruct Hk as [<-|[]]. exists cur. repeat split; [assumption|].
    destruct Hpath as [(_ & _ & ->)|(_ & ->)]; eauto.
  - destruct Hpath as [(_ & -> & _)|(_ & ->)]; [congruence|].
    destruct Hk as [<-|Hk]; [exists cur; eauto|].
    assert (Hwfe : wf_message e = true).
    { eapply wf_getattr_element; eauto. eapply nth_error_In; eauto. }
    destruct (IH Hwfe k Hk) as (p & -> & Hp' & Hrest).
    exists (cur ++ "." ++ p)%string. rewrite !append_assoc. repeat split.
    + destruct cur; [congruence | discriminate].
    + destruct Hrest as [->|[r ->]]; [now left | right; exists r].
      now rewrite !append_assoc.
  - assert (Hwfn : wf_message nested = true)
      by (eapply wf_getattr_nested; eauto).
    destruct (IH Hwfn k Hk) as (p & -> & Hp' & Hrest).
    exists (cur ++ "." ++ p)%string. rewrite !append_assoc. repeat split.
    + destruct cur; [congruence | discriminate].
    + destruct Hpath as [(_ & -> & _)|(_ & ->)].
      * exfalso. destruct Hrest as [E|[r E]]; destruct p; simpl in E;
          congruence.
      * destruct Hrest as [->|[r ->]]; [now left | right; exists r].
        now rewrite !append_assoc.
Qed.

Lemma element_at_keys_not_top m path levels data :
  element_at m path "index" levels data ->
  wf_message m = true ->
  forall k, In k (map fst levels) -> k <> "index.".
Proof.
  intros He Hwf k Hk.
  destruct (element_at_key_path _ _ _ _ _ He Hwf k Hk) as (p & -> & Hp & _).
  destruct p; [congruence | discriminate].
Qed.

Lemma resolves_key m path idx field c r ip :
  resolves m path idx field c r ip ->
  exists s, ip = (idx ++ "." ++ fst (fst (partition path)) ++ s)%string.
Proof.
  induction 1 as [m path idx cur sep rest field Hp Hg Hl
                 |m path idx cur sep rest nested field c r ip Hp Hg Hr IH];
    rewrite Hp; simpl.
  - exists "". now rewrite append_empty_r.
  - destruct IH as [s ->].
    exists ("." ++ fst (fst (partition rest)) ++ s)%string.
    now rewrite !append_assoc.
Qed.

Lemma resolves_first_field m path idx field c r ip :
  resolves m path idx field c r ip ->
  exists v, getattr m (fst (fst (partition path))) = Some v.
Proof. destruct 1 as [? ? ? ? ? ? ? Hp Hg|? ? ? ? ? ? ? ? ? ? ? Hp Hg]; rewrite Hp; eauto. Qed.

Lemma resolves_key_not_top m path field c r ip :
  resolves m path "index" field c r ip ->
  wf_message m = true -> ip <> "index.".
Proof.
  intros Hr Hwf E.
  destruct (resolves_first_field _ _ _ _ _ _ _ Hr) as [v Hv].
  apply (wf_getattr_nonempty _ _ _ Hwf) in Hv.
  destruct (resolves_key _ _ _ _ _ _ _ Hr) as [s Hs]. rewrite Hs in E.
  destruct (fst (fst (partition path))); [congruence | discriminate].
Qed.

(** ** What [explode_field] returns at a resolved repeated field *)

Lemma explode_field_resolves m path idx field c r ip :
  resolves m path idx field c r ip ->
  explode_field m path idx =
  if String.eqb r "" then Ok (dicts_from_repeated_field field c ip)
  else match field with
       | FRepMessage elements => explode_repeated elements r ip
       | FRepScalar elements => explode_repeated_scalars elements r
       | FScalar _ | FMessage _ => Ok []
       end.
Proof.
  induction 1 as [m path idx cur sep rest field Hp Hg Hl
                 |m path idx cur sep rest nested field c r ip Hp Hg Hr IH];
    rewrite explode_field_eq, Hp, Hg.
  - destruct field; try discriminate; reflexivity.
  - exact IH.
Qed.

Lemma map_enumerate_length {A B : Type} (f : nat * A -> B) (l : list A) :
  List.length (map f (enumerate l)) = List.length l.
Proof.
  unfold enumerate.
  now rewrite length_map, length_combine, length_seq, Nat.min_id.
Qed.


Lemma map_combine_seq {A B : Type} (g : nat -> B) (l : list A) : forall i,
  map (fun ix : nat * A => g (fst ix)) (combine (seq i (List.length l)) l)
  = map g (seq i (List.length l)).
Proof. induction l as [|x l IH]; intros i; simpl; [|rewrite IH]; reflexivity. Qed.

Lemma dicts_from_repeated_field_index field c ip path sep rest idx :
  partition path = (c, sep, rest) ->
  ip = (idx ++ "." ++ c)%string ->
  map (dict_get ip) (dicts_from_repeated_field field c ip)
  = map (fun i => Some (VInt i)) (seq 0 (field_length field)).
Proof.
  intros Hp ->. pose proof (index_path_not_field idx _ _ _ _ Hp) as Hne.
  destruct field as [s|nested|elements|elements]; simpl; auto;
    rewrite map_map; unfold enumerate;
    rewrite <- (map_combine_seq (fun i => Some (VInt i)));
    apply map_ext; intros [i x]; simpl.
  - change (dict_get (idx ++ "." ++ c)%string
              (dict_set c (VScalar x)
                 (dict_set (idx ++ "." ++ c)%string (VInt i) []))
            = Some (VInt i)).
    rewrite dict_get_set_other by (apply not_eq_sym; exact Hne).
    apply dict_get_set_same.
  - apply dict_get_set_same.
Qed.

Lemma resolves_terminal_partition m path idx field c r ip :
  resolves m path idx field c r ip ->
  exists path' idx' sep,
    partition path' = (c, sep, r) /\ ip = (idx' ++ "." ++ c)%string.
Proof. induction 1; eauto. Qed.

(** ** The rows of one record among the rows of [proto_explode] *)

Lemma has_index_stamped i j d :
  has_index i (dict_set "index." (VInt j) d) = Nat.eqb j i.
Proof.
  unfold has_index. rewrite dict_get_set_same. unfold VInt.
  destruct (Nat.eqb_spec j i) as [->|Hne].
  - apply Z.eqb_refl.
  - apply Z.eqb_neq. lia.
Qed.

Lemma filter_stamped i rss : forall i0,
  filter (has_index i) (stamped "index." i0 rss)
  = match nth_error rss (i - i0) with
    | Some rs => if Nat.leb i0 i then map (dict_set "index." (VInt i)) rs
                 else []
    | None => []
    end.
Proof.
  induction rss as [|rs rss IH]; intros i0.
  - rewrite stamped_nil. now destruct (i - i0).
  - rewrite stamped_cons, filter_app, IH.
    assert (Hrs : filter (has_index i) (map (dict_set "index." (VInt i0)) rs)
                  = if Nat.eqb i0 i then map (dict_set "index." (VInt i0)) rs
                    else []).
    { induction rs as [|d rs IHrs]; simpl.
      - now destruct (Nat.eqb i0 i).
      - rewrite has_index_stamped, IHrs. now destruct (Nat.eqb i0 i). }
    rewrite Hrs. destruct (Nat.eqb_spec i0 i) as [E|Hne]; [subst i0|].
    + rewrite Nat.sub_diag, Nat.leb_refl. cbn [nth_error].
      replace (i - S i) with 0 by lia.
      replace (Nat.leb (S i) i) with false by (symmetry; apply Nat.leb_gt; lia).
      destruct (nth_error rss 0); apply app_nil_r.
    + cbn [app]. destruct (Nat.leb_spec i0 i) as [Hle|Hgt].
      * replace (i - i0) with (S (i - S i0)) by lia. cbn [nth_error].
        replace (Nat.leb (S i0) i) with true
          by (symmetry; apply Nat.leb_le; lia).
        reflexivity.
      * replace (Nat.leb (S i0) i) with false
          by (symmetry; apply Nat.leb_gt; lia).
        now destruct (nth_error rss (i - S i0)),
          (nth_error (rs :: rss) (i - i0)).
Qed.

Lemma proto_explode_rows_of_record records path rows i m :
  proto_explode_rows records path = Ok rows ->
  nth_error records i = Some m ->
  exists rs,
    explode_field m path "index" = Ok rs
    /\ filter (has_index i) rows = map (dict_set "index." (VInt i)) rs.
Proof.
  unfold proto_explode_rows. rewrite proto_explode_from_Ok.
  intros (rss & HF & ->) Hm. simpl.
  destruct (Forall2_nth_error_l _ _ _ HF _ _ Hm) as (rs & Hrs & Hok).
  exists rs. split; [assumption|].
  now rewrite filter_stamped, Nat.sub_0_r, Hrs.
Qed.

Lemma In_proto_explode_rows records path rows d :
  proto_explode_rows records path = Ok rows ->
  In d rows ->
  exists i m rs d0,
    nth_error records i = Some m
    /\ explode_field m path "index" = Ok rs
    /\ In d0 rs
    /\ d = dict_set "index." (VInt i) d0.
Proof.
  unfold proto_explode_rows. rewrite proto_explode_from_Ok.
  intros (rss & HF & ->) Hd. simpl in Hd.
  apply In_stamped in Hd as (j & rs & d0 & Hj & Hd0 & ->). simpl.
  destruct (Forall2_nth_error_r _ _ _ HF _ _ Hj) as (m & Hm & Hok).
  exists j, m, rs, d0. auto.
Qed.


(** ** Exceptions reach the caller *)

Lemma explode_field_calls m path idx m' path' idx' :
  calls m path idx m' path' idx' ->
  forall err,
    explode_field m' path' idx' = Raise err ->
    explode_field m path idx = Raise err.
Proof.
  induction 1 as [m path idx
                 |m path idx cur sep rest nested m' path' idx' Hp Hg Hc IH
                 |m path idx cur sep rest before e after m' path' idx'
                    Hp Hr Hg HF Hc IH];
    intros err Herr; [assumption| |];
    rewrite explode_field_eq, Hp, Hg.
  - now apply IH.
  - apply String.eqb_neq in Hr. rewrite Hr.
    unfold explode_repeated. apply explode_repeated_from_Raise; auto.
Qed.

(** A path that comes to a singular scalar field raises the "Invalid path"
    error, with segments left or not. *)
Lemma explode_field_scalar_raises m path idx m' path' idx' cur sep rest s :
  calls m path idx m' path' idx' ->
  partition path' = (cur, sep, rest) ->
  getattr m' cur = Some (FScalar s) ->
  explode_field m path idx = Raise (ValueError (invalid_path rest cur)).
Proof.
  intros Hc Hp Hg. apply (explode_field_calls _ _ _ _ _ _ Hc).
  now rewrite explode_field_eq, Hp, Hg.
Qed.

(** ** [proto_to_dict]: the keys and what they hold *)

Lemma proto_to_dict_eq fs :
  proto_to_dict (MkMessage fs) = fold_left add_field fs [].
Proof. reflexivity. Qed.

Lemma add_field_keys acc f k :
  In k (dict_keys (add_field acc f)) <->
  In k (dict_keys acc) \/ (k = fst f /\ label (snd f) <> LABEL_REPEATED).
Proof.
  unfold add_field. destruct f as [n v]; simpl.
  destruct v; simpl; rewrite ?dict_keys_set; intuition congruence.
Qed.

Lemma fold_add_field_keys fs : forall acc k,
  In k (dict_keys (fold_left add_field fs acc)) <->
  In k (dict_keys acc)
  \/ exists v, In (k, v) fs /\ label v <> LABEL_REPEATED.
Proof.
  induction fs as [|[n v] fs IH]; intros acc k; simpl.
  - split; [auto | intros [H|(v & [] & _)]; exact H].
  - rewrite IH, add_field_keys. simpl. split.
    + intros [[H|[-> Hl]]|(w & Hin & Hl)]; eauto.
    + intros [H|(w & [[= -> ->]|Hin] & Hl)]; eauto.
Qed.

Lemma add_field_other acc f k :
  fst f <> k -> dict_get k (add_field acc f) = dict_get k acc.
Proof.
  unfold add_field. destruct f as [n v]; simpl. intros Hne.
  destruct v; auto using dict_get_set_other.
Qed.

Lemma fold_add_field_other fs : forall acc k,
  ~ In k (map fst fs) ->
  dict_get k (fold_left add_field fs acc) = dict_get k acc.
Proof.
  induction fs as [|f fs IH]; intros acc k Hk; simpl in *; [reflexivity|].
  rewrite IH by tauto. apply add_field_other. tauto.
Qed.

Lemma fold_add_field_get fs : forall acc k v,
  NoDup (map fst fs) -> In (k, v) fs ->
  dict_get k (fold_left add_field fs acc) = dict_get k (add_field acc (k, v)).
Proof.
  induction fs as [|[n w] fs IH]; intros acc k v Hnd Hin; simpl in *; [tauto|].
  inversion Hnd as [|? ? Hn Hnd']; subst. destruct Hin as [[= -> ->]|Hin].
  - now apply fold_add_field_other.
  - rewrite (IH _ _ _ Hnd' Hin).
    assert (Hne : n <> k).
    { intros ->. apply Hn. apply in_map_iff. now exists (k, v). }
    unfold add_field at 1 3. simpl.
    destruct v; try (rewrite !dict_get_set_same; reflexivity);
      now apply add_field_other.
Qed.

(** C7: the keys of [proto_to_dict] of a well-formed record are exactly the
    names of its non-repeated fields; the name of a repeated field, of scalars
    or of messages, is never a key; a singular message field holds the
    flattened sub-mapping of its record under its name, a scalar field its
    value. *)
Theorem proto_to_dict_keys (m : Message) (Hwf : wf_message m = true) :
  (forall k,
      In k (dict_keys (proto_to_dict m)) <->
      exists v, In (k, v) (fields m) /\ label v <> LABEL_REPEATED)
  /\ (forall k v,
         In (k, v) (fields m) -> label v = LABEL_REPEATED ->
         ~ In k (dict_keys (proto_to_dict m)))
  /\ (forall k nested,
         In (k, FMessage nested) (fields m) ->
         wf_message nested = true
         /\ dict_get k (proto_to_dict m) = Some (VDict (proto_to_dict nested)))
  /\ (forall k s,
         In (k, FScalar s) (fields m) ->
         dict_get k (proto_to_dict m) = Some (VScalar s)).
Proof.
  destruct m as [fs]. rewrite proto_to_dict_eq. simpl fields.
  pose proof (wf_message_fields _ Hwf) as (Hnd & _ & Hnested & _).
  split; [|split; [|split]].
  - intros k. rewrite fold_add_field_keys. split; [|auto].
    intros [[]|H]; exact H.
  - intros k v H Hl Hk. apply dict_get_In in Hk as [w Hw].
    rewrite (fold_add_field_get _ _ _ _ Hnd H) in Hw.
    unfold add_field in Hw. simpl in Hw.
    destruct v; discriminate.
  - intros k nested H. split; [eauto|].
    rewrite (fold_add_field_get _ _ _ _ Hnd H). unfold add_field. simpl.
    now rewrite String.eqb_refl.
  - intros k s H. rewrite (fold_add_field_get _ _ _ _ Hnd H).
    unfold add_field. simpl. now rewrite String.eqb_refl.
Qed.

Lemma proto_to_dict_keys_witness :
  wf_message Scenario.record0 = true
  /\ (forall k,
         In k (dict_keys (proto_to_dict Scenario.record0)) <->
         exists v, In (k, v) (fields Scenario.record0)
                   /\ label v <> LABEL_REPEATED).
Proof.
  split; [reflexivity|].
  apply (proto_to_dict_keys Scenario.record0). reflexivity.
Defined.

(** ** The scenario *)

(** C1: on the two records of the scenario, [proto_normalize] gives the
    columns [a] and [c.d] with the rows (index 0: 1, "x") and (index 1: 2,
    "y"), and [proto_explode] with the path "b" gives the single column [b]
    with the rows keyed (0,0), (0,1), (1,0) by (index, index.b) holding 10, 20
    and 30. *)
Theorem scenario_tables :
  proto_normalize [Scenario.record0; Scenario.record1]
  = Pandas.mkFrame [Some "index"] ["a"; "c.d"]
      [Pandas.mkRow [Some (SInt 0)] [Some (SInt 1); Some (SStr "x")];
       Pandas.mkRow [Some (SInt 1)] [Some (SInt 2); Some (SStr "y")]]
  /\ proto_explode [Scenario.record0; Scenario.record1] "b"
     = Ok (Pandas.mkFrame [Some "index"; Some "index.b"] ["b"]
             [Pandas.mkRow [Some (SInt 0); Some (SInt 0)] [Some (SInt 10)];
              Pandas.mkRow [Some (SInt 0); Some (SInt 1)] [Some (SInt 20)];
              Pandas.mkRow [Some (SInt 1); Some (SInt 0)] [Some (SInt 30)]]).
Proof. split; vm_compute; reflexivity. Qed.

(** ** Paths that cannot be resolved *)

(** When the traversal comes to a record on which the next segment of the
    path names no field, the exception of the failed lookup ends
    [explode_field], and [proto_explode] when the records before this one
    raise nothing: no "Invalid path" error is raised for the segment. *)
Lemma missing_field_raises
  (before after : list Message) (m m' : Message) (path path' idx' : string)
  (Hbefore : Forall (fun m0 => exists rows,
                         explode_field m0 path "index" = Ok rows) before)
  (Hcalls : calls m path "index" m' path' idx')
  (Hmissing : getattr m' (fst (fst (partition path'))) = None) :
  explode_field m path "index"
  = Raise (AttributeError (fst (fst (partition path'))))
  /\ proto_explode (before ++ m :: after) path
     = Raise (AttributeError (fst (fst (partition path')))).
Proof.
  assert (He : explode_field m path "index"
               = Raise (AttributeError (fst (fst (partition path'))))).
  { apply (explode_field_calls _ _ _ _ _ _ Hcalls).
    rewrite explode_field_eq.
    destruct (partition path') as [[cur sep] rest]. simpl in *.
    now rewrite Hmissing. }
  split; [exact He|].
  unfold proto_explode, proto_explode_rows.
  now rewrite (proto_explode_from_Raise _ _ _ _ _ _ _ Hbefore He).
Qed.

(** C3: a segment that names no field of the record reached.  The path
    "c.e.f" leads the records of the scenario to the record under [c], which
    has no field [e]; the path "z" names no field of the first record.  The
    call ends with the exception of the failed lookup, which is not the
    "Invalid path" error: that error is raised when the segment names a scalar
    field, as [d] in "c.d.f". *)
Theorem missing_field_error :
  explode_field Scenario.record1 "c.e.f" "index" = Raise (AttributeError "e")
  /\ proto_explode [Scenario.record1; Scenario.record0] "c.e.f"
     = Raise (AttributeError "e")
  /\ proto_explode [Scenario.record0; Scenario.record1] "z"
     = Raise (AttributeError "z")
  /\ proto_explode [Scenario.record1; Scenario.record0] "c.d.f"
     = Raise (ValueError "Invalid path: f. d cannot be traversed.").
Proof. repeat split; vm_compute; reflexivity. Qed.

(** C4, at a path that ends on a singular message field: the exception is
    the one of a failed lookup of the empty name, not the "Invalid path"
    error that names the segment and the fragment. *)
Theorem path_ending_on_message_raises :
  explode_field Scenario.record0 "c" "index" = Raise (AttributeError "")
  /\ proto_explode [Scenario.record0; Scenario.record1] "c"
     = Raise (AttributeError "")
  /\ explode_field Scenario.record0 "a" "index"
     = Raise (ValueError "Invalid path: . a cannot be traversed.")
  /\ explode_field Scenario.record0 "a.d" "index"
     = Raise (ValueError "Invalid path: d. a cannot be traversed.").
Proof. repeat split; vm_compute; reflexivity. Qed.

(** ** Rows and positions *)


Lemma resolves_terminal_rows m path idx field c ip :
  resolves m path idx field c "" ip ->
  explode_field m path idx = Ok (dicts_from_repeated_field field c ip)
  /\ map (dict_get ip) (dicts_from_repeated_field field c ip)
     = map (fun k => Some (VInt k)) (seq 0 (field_length field)).
Proof.
  intros H. split.
  - now rewrite (explode_field_resolves _ _ _ _ _ _ _ H).
  - destruct (resolves_terminal_partition _ _ _ _ _ _ _ H)
      as (path' & idx' & sep & Hp & ->).
    eapply dicts_from_repeated_field_index; eauto.
Qed.



(** The dictionaries that the loop of [proto_explode] builds, before the
    table assembly flattens them: every row comes from an element reached
    from one of the records, and holds the position of the record under
    "index.", the position of the element at each repetition level under the
    index key of the level, whatever the data of the element holds at the top
    under these keys, and the data of the element under every other key. *)
Lemma index_keys_hold_positions
  (records : list Message) (path : string) (rows : list Dict)
  (Hwf : Forall (fun m => wf_message m = true) records)
  (Hrows : proto_explode_rows records path = Ok rows) :
  forall d, In d rows ->
  exists i m levels data,
    nth_error records i = Some m
    /\ element_at m path "index" levels data
    /\ row_of (("index.", i) :: levels) data d.
Proof.
  intros d Hd.
  destruct (In_proto_explode_rows _ _ _ _ Hrows Hd)
    as (i & m & rs & d0 & Hm & Hrs & Hd0 & ->).
  destruct (explode_field_sound _ _ _ _ Hrs _ Hd0)
    as (levels & data & Hat & Hrow).
  exists i, m, levels, data. split; [assumption|]. split; [assumption|].
  apply row_of_stamped; [|assumption].
  rewrite Forall_forall in Hwf.
  eapply element_at_keys_not_top; eauto using nth_error_In.
Qed.

(** ** Two repetition levels *)





(** ** The table assembly *)

Lemma contains_In name names : Pandas.contains name names = true <-> In name names.
Proof.
  unfold Pandas.contains. rewrite existsb_exists. split.
  - intros (x & Hin & E). apply String.eqb_eq in E. now subst.
  - intros Hin. exists name. split; [assumption | apply String.eqb_refl].
Qed.

Lemma add_key_In cols k c : In c (Pandas.add_key cols k) <-> In c cols \/ c = k.
Proof.
  unfold Pandas.add_key. destruct (Pandas.contains k cols) eqn:E.
  - apply contains_In in E. split; [auto | intros [H| ->]; assumption].
  - rewrite in_app_iff. simpl. intuition.
Qed.

Lemma add_keys_In ks : forall cols c,
  In c (fold_left Pandas.add_key ks cols) <-> In c cols \/ In c ks.
Proof.
  induction ks as [|k ks IH]; intros cols c; simpl.
  - tauto.
  - rewrite IH, add_key_In. intuition.
Qed.

Lemma union_keys_from_In (records : list (list (string * Scalar))) :
  forall cols c,
    In c (fold_left
            (fun cols record => fold_left Pandas.add_key (dict_keys record) cols)
            records cols)
    <-> In c cols
        \/ exists record, In record records /\ In c (dict_keys record).
Proof.
  induction records as [|r records IH]; intros cols c; simpl.
  - split; [auto | intros [H|(r & [] & _)]; exact H].
  - rewrite IH, add_keys_In. split.
    + intros [[H|H]|(r' & Hin & Hc)]; eauto.
    + intros [H|(r' & [<-|Hin] & Hc)]; eauto.
Qed.

Lemma union_keys_In records c :
  In c (Pandas.union_keys records) <->
  exists record, In record records /\ In c (dict_keys record).
Proof.
  unfold Pandas.union_keys. rewrite union_keys_from_In. simpl. tauto.
Qed.

Lemma dict_get_combine_map {B : Type} (g : string -> B) cols c :
  dict_get c (combine cols (map g cols))
  = if Pandas.contains c cols then Some (g c) else None.
Proof.
  unfold Pandas.contains. induction cols as [|k cols IH]; simpl; [reflexivity|].
  rewrite (String.eqb_sym c k).
  destruct (String.eqb_spec k c) as [->|Hne]; [reflexivity | exact IH].
Qed.

Lemma nth_error_combine_seq {A : Type} (l : list A) : forall i j x,
  nth_error l j = Some x ->
  nth_error (combine (seq i (List.length l)) l) j = Some (i + j, x).
Proof.
  induction l as [|y l IH]; intros i j x Hn.
  - destruct j; discriminate.
  - destruct j as [|j]; simpl in *.
    + injection Hn as ->. now rewrite Nat.add_0_r.
    + rewrite (IH _ _ _ Hn). now rewrite Nat.add_succ_r.
Qed.

Lemma nth_error_enumerate {A : Type} (l : list A) i x :
  nth_error l i = Some x -> nth_error (enumerate l) i = Some (i, x).
Proof. intros H. unfold enumerate. now rewrite (nth_error_combine_seq _ 0 _ _ H). Qed.

(** Row [i] of a normalized frame is dictionary [i], flattened: its label is
    [i] and its cells are the values of the flattened dictionary. *)
Lemma json_normalize_row data i d :
  nth_error data i = Some d ->
  exists r,
    nth_error (Pandas.rows (Pandas.json_normalize data)) i = Some r
    /\ Pandas.index_label r = [Some (SInt (Z.of_nat i))]
    /\ forall c,
         Pandas.cell (Pandas.json_normalize data) r c
         = dict_get c (Pandas.normalise_json_ordered d).
Proof.
  intros Hd.
  exists (Pandas.mkRow [Some (SInt (Z.of_nat i))]
            (map (fun c => dict_get c (Pandas.normalise_json_ordered d))
               (Pandas.union_keys (map Pandas.normalise_json_ordered data)))).
  split; [|split].
  - unfold Pandas.json_normalize. simpl.
    rewrite nth_error_map.
    rewrite (nth_error_enumerate _ i (Pandas.normalise_json_ordered d));
      [reflexivity|].
    now apply map_nth_error.
  - reflexivity.
  - intros c. unfold Pandas.cell. simpl. rewrite dict_get_combine_map.
    destruct (Pandas.contains c _) eqn:E; [reflexivity|].
    symmetry. apply dict_get_None. intros Hc.
    assert (Pandas.contains c (Pandas.union_keys (map Pandas.normalise_json_ordered data)) = true);
      [|congruence].
    apply contains_In, union_keys_In.
    exists (Pandas.normalise_json_ordered d). split; [|assumption].
    apply in_map. eapply nth_error_In; eauto.
Qed.

Lemma json_normalize_length data :
  List.length (Pandas.rows (Pandas.json_normalize data)) = List.length data.
Proof.
  unfold Pandas.json_normalize. simpl.
  now rewrite map_enumerate_length, length_map.
Qed.

(** C8: [proto_normalize] keeps the order of the records: the table has one
    row per record, row [i] holds the flattened fields of record [i] and is
    labelled [i], and the row index is named "index". *)
Theorem proto_normalize_keeps_order (records : list Message) :
  Pandas.index_names (proto_normalize records) = [Some "index"]
  /\ List.length (Pandas.rows (proto_normalize records)) = List.length records
  /\ forall i m,
       nth_error records i = Some m ->
       exists r,
         nth_error (Pandas.rows (proto_normalize records)) i = Some r
         /\ Pandas.index_label r = [Some (SInt (Z.of_nat i))]
         /\ forall c,
              Pandas.cell (proto_normalize records) r c
              = dict_get c (Pandas.normalise_json_ordered (proto_to_dict m)).
Proof.
  split; [reflexivity|]. split.
  - unfold proto_normalize, Pandas.rename_index. simpl.
    now rewrite map_enumerate_length, !length_map.
  - intros i m Hm.
    destruct (json_normalize_row (map proto_to_dict records) i
                (proto_to_dict m)) as (r & Hr & Hl & Hc).
    { now apply map_nth_error. }
    exists r. auto.
Qed.

(** ** The index columns of the exploded table *)

Lemma dict_get_Some_In {V : Type} k (v : V) d :
  dict_get k d = Some v -> In (k, v) d.
Proof.
  induction d as [|[k' v'] d IH]; simpl; [discriminate|].
  destruct (String.eqb_spec k' k) as [->|Hne].
  - intros [= ->]. now left.
  - auto.
Qed.

Lemma fold_dict_set_keys {V : Type} (items : list (string * V)) :
  forall acc k,
    In k (dict_keys acc) ->
    In k (dict_keys
            (fold_left (fun d item => dict_set (fst item) (snd item) d)
               items acc)).
Proof.
  induction items as [|item items IH]; intros acc k Hk; simpl; [assumption|].
  apply IH. apply dict_keys_set. now right.
Qed.

(** A scalar at the top of a dictionary keeps its key when the dictionary is
    flattened. *)
Lemma normalise_json_ordered_scalar_key d k s :
  dict_get k d = Some (VScalar s) ->
  In k (dict_keys (Pandas.normalise_json_ordered d)).
Proof.
  intros Hk. apply dict_get_Some_In in Hk.
  unfold Pandas.normalise_json_ordered. apply fold_dict_set_keys.
  unfold dict_keys. apply in_map_iff. exists (k, s). split; [reflexivity|].
  apply in_flat_map. exists (k, VScalar s). split; [assumption|].
  now left.
Qed.

Lemma json_normalize_column data d k s :
  In d data -> dict_get k d = Some (VScalar s) ->
  In k (Pandas.columns (Pandas.json_normalize data)).
Proof.
  intros Hd Hk. unfold Pandas.json_normalize. simpl.
  apply union_keys_In. exists (Pandas.normalise_json_ordered d).
  split; [now apply in_map | eapply normalise_json_ordered_scalar_key; eauto].
Qed.

Lemma json_normalize_column_row data c :
  In c (Pandas.columns (Pandas.json_normalize data)) -> exists d, In d data.
Proof.
  unfold Pandas.json_normalize. simpl. rewrite union_keys_In.
  intros (record & Hin & _). apply in_map_iff in Hin as (d & _ & Hd). eauto.
Qed.

Lemma prefix_append (a b : string) : String.prefix a (a ++ b) = true.
Proof.
  induction a as [|c a IH]; simpl.
  - now destruct b.
  - destruct (Ascii.ascii_dec c c); [exact IH | congruence].
Qed.

Lemma sorted_In l c : In c (sorted l) <-> In c l.
Proof.
  unfold sorted. split; apply Permutation_in.
  - apply Permutation_sym, StringSort.Permuted_sort.
  - apply StringSort.Permuted_sort.
Qed.

Lemma sorted_Sorted l :
  Sorted (fun a b => String.leb a b = true) (sorted l).
Proof. exact (StringSort.Sorted_sort l). Qed.

Lemma In_rows_of_record records path rows i m rs d0 :
  proto_explode_rows records path = Ok rows ->
  nth_error records i = Some m ->
  explode_field m path "index" = Ok rs ->
  In d0 rs ->
  In (dict_set "index." (VInt i) d0) rows.
Proof.
  intros Hrows Hm Hrs Hd0.
  destruct (proto_explode_rows_of_record _ _ _ _ _ Hrows Hm)
    as (rs' & Hrs' & Hmine).
  rewrite Hrs in Hrs'. injection Hrs' as <-.
  assert (H : In (dict_set "index." (VInt i) d0) (filter (has_index i) rows)).
  { rewrite Hmine. now apply in_map. }
  now apply filter_In in H.
Qed.

(** What [proto_explode] returns, step by step. *)
Lemma proto_explode_Ok records path df :
  proto_explode records path = Ok df ->
  exists rows,
    proto_explode_rows records path = Ok rows
    /\ let df0 := Pandas.json_normalize rows in
       let index_columns :=
         sorted (filter (String.prefix "index.") (Pandas.columns df0)) in
       index_columns <> []
       /\ df = Pandas.mkFrame
                 (map (Pandas.rename_level "index." "index")
                    (map Some index_columns))
                 (filter (fun c => negb (Pandas.contains c index_columns))
                    (Pandas.columns df0))
                 (map (fun r =>
                         Pandas.mkRow
                           (map (Pandas.cell df0 r) index_columns)
                           (map (Pandas.cell df0 r)
                              (filter
                                 (fun c =>
                                    negb (Pandas.contains c index_columns))
                                 (Pandas.columns df0))))
                    (Pandas.rows df0)).
Proof.
  unfold proto_explode.
  destruct (proto_explode_rows records path) as [rows|e]; [|discriminate].
  unfold bind at 1. cbv zeta. intros H. exists rows. split; [reflexivity|].
  destruct (sorted (filter (String.prefix "index.")
                      (Pandas.columns (Pandas.json_normalize rows))))
    as [|c1 ic]; [discriminate|].
  split; [discriminate|].
  unfold Pandas.set_index, bind, Pandas.rename_levels in H.
  cbn [Pandas.index_names map] in H.
  destruct ic as [|c2 ic]; [discriminate|].
  cbn [map] in H. injection H as <-. reflexivity.
Qed.

(** ** The keys of a flattened dictionary *)

Section PyValInduction.
Variable P : PyVal -> Prop.
Hypothesis scalar_case : forall s, P (VScalar s).
Hypothesis dict_case :
  forall d, Forall (fun item => P (snd item)) d -> P (VDict d).

Lemma pyval_induction : forall v, P v.
Proof.
  fix IH 1. intros [s|d]; [apply scalar_case|]. apply dict_case.
  induction d as [|[k v] d IHd]; constructor; [apply IH | exact IHd].
Qed.
End PyValInduction.

Lemma normalise_json_items_keys key_string k d :
  Forall (fun item =>
            forall ks nd,
              In k (dict_keys (Pandas.normalise_json (snd item) ks nd)) <->
              In k (dict_keys nd)
              \/ In k (dict_keys (Pandas.normalise_json (snd item) ks [])))
    d ->
  forall normalized_dict,
    In k (dict_keys
            (Pandas.normalise_json (VDict d) key_string normalized_dict)) <->
    In k (dict_keys normalized_dict)
    \/ exists item,
         In item d
         /\ In k (dict_keys
                    (Pandas.normalise_json (snd item)
                       (Pandas.new_key key_string (fst item)) [])).
Proof.
  simpl. induction 1 as [|item d Hitem _ IHd]; intros nd; simpl.
  - split; [auto | intros [H|(item & [] & _)]; exact H].
  - rewrite IHd, Hitem. split.
    + intros [[H|H]|(item' & Hin & H)]; eauto.
    + intros [H|(item' & [<-|Hin] & H)]; eauto.
Qed.

Lemma normalise_json_keys : forall v key_string normalized_dict k,
  In k (dict_keys (Pandas.normalise_json v key_string normalized_dict)) <->
  In k (dict_keys normalized_dict)
  \/ In k (dict_keys (Pandas.normalise_json v key_string [])).
Proof.
  induction v as [s|d IH] using pyval_induction; intros ks nd k.
  - simpl. rewrite !dict_keys_set. unfold dict_keys. simpl.
    intuition congruence.
  - assert (HF : Forall (fun item =>
                  forall ks nd,
                    In k (dict_keys (Pandas.normalise_json (snd item) ks nd))
                    <-> In k (dict_keys nd)
                        \/ In k (dict_keys
                                   (Pandas.normalise_json (snd item) ks [])))
                  d).
    { eapply Forall_impl; [|exact IH]. intros item H ks' nd'. apply H. }
    rewrite (normalise_json_items_keys ks k d HF nd).
    rewrite (normalise_json_items_keys ks k d HF []). simpl. tauto.
Qed.

Lemma normalise_json_dict_keys d key_string k :
  In k (dict_keys (Pandas.normalise_json (VDict d) key_string [])) <->
  exists item,
    In item d
    /\ In k (dict_keys
               (Pandas.normalise_json (snd item)
                  (Pandas.new_key key_string (fst item)) [])).
Proof.
  rewrite normalise_json_items_keys.
  - simpl. tauto.
  - apply Forall_forall. intros item _ ks nd. apply normalise_json_keys.
Qed.

Lemma fold_dict_set_keys_iff {V : Type} (items : list (string * V)) :
  forall acc k,
    In k (dict_keys
            (fold_left (fun d item => dict_set (fst item) (snd item) d)
               items acc))
    <-> In k (dict_keys acc) \/ In k (dict_keys items).
Proof.
  induction items as [|item items IH]; intros acc k; simpl.
  - tauto.
  - rewrite IH, dict_keys_set. intuition congruence.
Qed.

(** The columns a dictionary gives: the keys of its scalars and the dotted
    keys of what its nested dictionaries hold. *)
Lemma normalise_json_ordered_keys d k :
  In k (dict_keys (Pandas.normalise_json_ordered d)) <->
  (exists s, In (k, VScalar s) d)
  \/ (exists k0 sub,
         In (k0, VDict sub) d
         /\ In k (dict_keys (Pandas.normalise_json (VDict sub) k0 []))).
Proof.
  unfold Pandas.normalise_json_ordered.
  rewrite fold_dict_set_keys_iff, normalise_json_dict_keys.
  assert (Htop :
    In k (dict_keys
            (flat_map (fun item : string * PyVal =>
                         match snd item with
                         | VScalar s => [(fst item, s)]
                         | VDict _ => []
                         end) d))
    <-> exists s, In (k, VScalar s) d).
  { unfold dict_keys. rewrite in_map_iff. split.
    - intros ([k' s] & <- & Hin).
      apply in_flat_map in Hin as ([k0 v] & Hd & Hin).
      simpl in Hin. destruct v; [|destruct Hin].
      destruct Hin as [[= <- <-]|[]]. eauto.
    - intros [s Hin]. exists (k, s). split; [reflexivity|].
      apply in_flat_map. exists (k, VScalar s). split; [assumption | now left]. }
  assert (Hnested :
    (exists item,
        In item (filter (fun item => Pandas.is_dict (snd item)) d)
        /\ In k (dict_keys
                   (Pandas.normalise_json (snd item)
                      (Pandas.new_key "" (fst item)) [])))
    <-> exists k0 sub,
          In (k0, VDict sub) d
          /\ In k (dict_keys (Pandas.normalise_json (VDict sub) k0 []))).
  { split.
    - intros ([k0 v] & Hin & Hk). apply filter_In in Hin as [Hin Hv].
      destruct v as [s|sub]; [discriminate|]. eauto.
    - intros (k0 & sub & Hin & Hk). exists (k0, VDict sub).
      split; [|exact Hk]. apply filter_In. auto. }
  rewrite Htop, Hnested. tauto.
Qed.

Lemma row_of_columns levels data d c :
  row_of levels data d ->
  In c (dict_keys (Pandas.normalise_json_ordered d)) ->
  In c (map fst levels)
  \/ In c (dict_keys (Pandas.normalise_json_ordered data)).
Proof.
  intros (_ & _ & He). rewrite !normalise_json_ordered_keys.
  intros [[s Hin]|(k0 & sub & Hin & Hk)].
  - destruct (He _ _ Hin) as [(p & Hp & _)|Hdata].
    + left. apply in_map_iff. now exists (c, p).
    + right. left. eauto.
  - destruct (He _ _ Hin) as [(p & _ & Hv)|Hdata]; [discriminate|].
    right. right. eauto.
Qed.

(** C2, as the code has it: the index columns of the exploded table are its
    columns whose name starts with "index.", sorted, and their values make
    the row key; the top-level column "index." is among them and is renamed
    "index"; for every element reached from a record and every repetition
    level on the way to it, the column named "index." followed by the dotted
    path from the first segment down to the field of that level is among them
    and keeps its name; and every index column is the top-level one, the
    column of such a level, or a column of the flattened data of an
    element. *)
Theorem exploded_table_index_columns
  (records : list Message) (path : string) (df : Pandas.DataFrame)
  (Hwf : Forall (fun m => wf_message m = true) records)
  (Hdf : proto_explode records path = Ok df) :
  exists rows index_columns,
    proto_explode_rows records path = Ok rows
    /\ Sorted (fun a b => String.leb a b = true) index_columns
    /\ (forall c,
           In c index_columns <->
           In c (Pandas.columns (Pandas.json_normalize rows))
           /\ String.prefix "index." c = true)
    /\ Pandas.index_names df
       = map (fun c => Some (if String.eqb c "index." then "index" else c))
           index_columns
    /\ Pandas.rows df
       = map (fun r =>
                Pandas.mkRow
                  (map (Pandas.cell (Pandas.json_normalize rows) r)
                     index_columns)
                  (map (Pandas.cell (Pandas.json_normalize rows) r)
                     (Pandas.columns df)))
           (Pandas.rows (Pandas.json_normalize rows))
    /\ In "index." index_columns
    /\ (forall m levels data k,
           In m records ->
           element_at m path "index" levels data ->
           In k (map fst levels) ->
           In k index_columns
           /\ k <> "index."
           /\ exists p,
                k = ("index." ++ p)%string
                /\ (path = p \/ exists rest, path = (p ++ "." ++ rest)%string))
    /\ (forall c,
           In c index_columns ->
           c = "index."
           \/ exists m levels data,
                In m records
                /\ element_at m path "index" levels data
                /\ (In c (map fst levels)
                    \/ In c (dict_keys (Pandas.normalise_json_ordered data)))).
Proof.
  destruct (proto_explode_Ok _ _ _ Hdf) as (rows & Hrows & Hne & ->).
  set (df0 := Pandas.json_normalize rows) in *.
  set (ic := sorted (filter (String.prefix "index.") (Pandas.columns df0)))
    in *.
  assert (Hic : forall c,
             In c ic <->
             In c (Pandas.columns df0) /\ String.prefix "index." c = true).
  { intros c. unfold ic. now rewrite sorted_In, filter_In. }
  exists rows, ic. split; [exact Hrows|]. split; [apply sorted_Sorted|].
  split; [exact Hic|]. split; [|split; [reflexivity|split; [|split]]].
  - cbn [Pandas.index_names]. rewrite map_map. apply map_ext. intros c.
    unfold Pandas.rename_level. now destruct (String.eqb c "index.").
  - destruct ic as [|c ic'] eqn:E; [congruence|].
    assert (Hc : In c (Pandas.columns df0)) by (apply Hic; now left).
    destruct (json_normalize_column_row _ _ Hc) as [d Hd].
    destruct (In_proto_explode_rows _ _ _ _ Hrows Hd)
      as (i & m & rs & d0 & _ & _ & _ & ->).
    apply Hic. split; [|reflexivity].
    eapply json_normalize_column; [exact Hd|]. apply dict_get_set_same.
  - intros m levels data k Hm Hat Hk.
    rewrite Forall_forall in Hwf. specialize (Hwf _ Hm).
    destruct (element_at_key_path _ _ _ _ _ Hat Hwf k Hk)
      as (p & -> & Hp & Hpath).
    assert (Hnot : ("index" ++ "." ++ p)%string <> "index.").
    { destruct p; [congruence | discriminate]. }
    split; [|split; [exact Hnot | exists p; split; [reflexivity | exact Hpath]]].
    apply Hic. split; [|apply (prefix_append "index." p)].
    destruct (In_nth_error _ _ Hm) as [i Hi].
    destruct (proto_explode_rows_of_record _ _ _ _ _ Hrows Hi)
      as (rs & Hrs & _).
    destruct (explode_field_complete _ _ _ _ _ Hat _ Hrs)
      as (d0 & Hd0 & Hlev & _).
    apply in_map_iff in Hk as ([k' pos] & Hk' & Hin). simpl in Hk'. subst k'.
    eapply (json_normalize_column rows (dict_set "index." (VInt i) d0)).
    + eapply In_rows_of_record; eauto.
    + rewrite dict_get_set_other by (apply not_eq_sym; exact Hnot).
      exact (Hlev _ _ Hin).
  - intros c Hc. apply Hic in Hc as [Hc _].
    unfold df0, Pandas.json_normalize in Hc. simpl in Hc.
    apply union_keys_In in Hc as (record & Hrec & Hc).
    apply in_map_iff in Hrec as (d & <- & Hd).
    destruct (In_proto_explode_rows _ _ _ _ Hrows Hd)
      as (i & m & rs & d0 & Hm & Hrs & Hd0 & ->).
    destruct (explode_field_sound _ _ _ _ Hrs _ Hd0)
      as (levels & data & Hat & Hrow).
    rewrite Forall_forall in Hwf.
    pose proof (Hwf _ (nth_error_In _ _ Hm)) as Hwfm.
    assert (Hrow' : row_of (("index.", i) :: levels) data
                      (dict_set "index." (VInt i) d0)).
    { apply row_of_stamped; [|assumption].
      eapply element_at_keys_not_top; eauto. }
    destruct (row_of_columns _ _ _ _ Hrow' Hc) as [[<-|Hlev]|Hdata];
      [now left| |]; right; exists m, levels, data;
      eauto using nth_error_In.
Qed.

Lemma exploded_table_index_columns_witness :
  exists rows index_columns,
    proto_explode_rows [Scenario.nested_record] "a.b" = Ok rows
    /\ Sorted (fun a b => String.leb a b = true) index_columns
    /\ (forall c,
           In c index_columns <->
           In c (Pandas.columns (Pandas.json_normalize rows))
           /\ String.prefix "index." c = true).
Proof.
  destruct (exploded_table_index_columns [Scenario.nested_record] "a.b"
              (Pandas.mkFrame
                 [Some "index"; Some "index.a"; Some "index.a.b"] ["b"]
                 [Pandas.mkRow [Some (SInt 0); Some (SInt 0); Some (SInt 0)]
                    [Some (SInt 10)];
                  Pandas.mkRow [Some (SInt 0); Some (SInt 0); Some (SInt 1)]
                    [Some (SInt 20)];
                  Pandas.mkRow [Some (SInt 0); Some (SInt 1); Some (SInt 0)]
                    [Some (SInt 30)]]))
    as (rows & index_columns & H1 & H2 & H3 & _).
  - repeat constructor.
  - vm_compute. reflexivity.
  - exists rows, index_columns. auto.
Defined.

(** The claim C2 as the specification has it fails on a path of two levels:
    the index column of the inner level [b] of the path "a.b" is named
    "index.a.b", and no index column is named "index.b". *)
Lemma index_column_of_inner_level :
  exists df,
    proto_explode [Scenario.nested_record] "a.b" = Ok df
    /\ Pandas.index_names df
       = [Some "index"; Some "index.a"; Some "index.a.b"]
    /\ ~ In (Some "index.b") (Pandas.index_names df).
Proof.
  eexists. split; [vm_compute; reflexivity|]. split; [reflexivity|].
  simpl. intros [H|[H|[H|[]]]]; discriminate.
Qed.

(** ** From the rows to the table *)

Lemma element_at_levels m path idx levels data :
  element_at m path idx levels data -> levels <> [].
Proof. induction 1; [discriminate | discriminate | assumption]. Qed.

(** X14: when the loop of [proto_explode] has built at least one row, from
    well-formed records, the table assembly raises nothing, and the table has
    one row for each row built. *)
Lemma proto_explode_table records path rows :
  Forall (fun m => wf_message m = true) records ->
  proto_explode_rows records path = Ok rows ->
  rows <> [] ->
  exists df,
    proto_explode records path = Ok df
    /\ List.length (Pandas.rows df) = List.length rows.
Proof.
  intros Hwf Hrows Hne.
  destruct rows as [|d rows']; [congruence|]. clear Hne.
  set (rows := d :: rows') in *.
  assert (Hd : In d rows) by now left.
  destruct (In_proto_explode_rows _ _ _ _ Hrows Hd)
    as (i & m & rs & d0 & Hm & Hrs & Hd0 & E).
  destruct (explode_field_sound _ _ _ _ Hrs _ Hd0)
    as (levels & data & Hat & Hlev & _).
  pose proof (element_at_levels _ _ _ _ _ Hat) as Hnil.
  destruct levels as [|[k pos] levels]; [congruence|].
  rewrite Forall_forall in Hwf. specialize (Hwf _ (nth_error_In _ _ Hm)).
  assert (Hk : In k (map fst ((k, pos) :: levels))) by now left.
  destruct (element_at_key_path _ _ _ _ _ Hat Hwf k Hk) as (p & Ek & Hp & _).
  assert (Hnot : k <> "index.").
  { subst k. destruct p; [congruence | discriminate]. }
  set (ic := sorted (filter (String.prefix "index.")
                       (Pandas.columns (Pandas.json_normalize rows)))).
  assert (Htop : In "index." ic).
  { apply sorted_In, filter_In. split; [|reflexivity].
    eapply json_normalize_column; [exact Hd|].
    rewrite E. apply dict_get_set_same. }
  assert (Hkey : In k ic).
  { apply sorted_In, filter_In. split.
    - eapply json_normalize_column; [exact Hd|].
      rewrite E, dict_get_set_other by (apply not_eq_sym; exact Hnot).
      apply Hlev. now left.
    - rewrite Ek. apply (prefix_append "index." p). }
  unfold proto_explode. rewrite Hrows. unfold bind at 1. cbv zeta.
  fold ic. destruct ic as [|c1 [|c2 ic']].
  - destruct Htop.
  - destruct Htop as [E1|[]]. destruct Hkey as [E2|[]].
    exfalso. apply Hnot. now rewrite <- E2.
  - eexists. split; [reflexivity|]. cbn [Pandas.rows].
    rewrite length_map. apply json_normalize_length.
Qed.

(** * Further properties of the code *)

(** ** [proto_to_dict]: order and repeated fields *)

Lemma dict_keys_set_new {V : Type} k (v : V) d :
  ~ In k (dict_keys d) -> dict_keys (dict_set k v d) = dict_keys d ++ [k].
Proof.
  unfold dict_keys. induction d as [|[k' v'] d IH]; simpl; [reflexivity|].
  intros Hk. destruct (String.eqb_spec k' k) as [->|Hne]; [tauto|].
  simpl. rewrite IH by tauto. reflexivity.
Qed.

Lemma add_field_key_order acc f :
  ~ In (fst f) (dict_keys acc) ->
  dict_keys (add_field acc f)
  = dict_keys acc ++ (if repeated (snd f) then [] else [fst f]).
Proof.
  unfold add_field, repeated. destruct f as [n v]; simpl. intros Hn.
  destruct v; simpl; rewrite ?app_nil_r; auto using dict_keys_set_new.
Qed.

Lemma fold_add_field_key_order fs : forall acc,
  NoDup (map fst fs) ->
  (forall n, In n (map fst fs) -> ~ In n (dict_keys acc)) ->
  dict_keys (fold_left add_field fs acc)
  = dict_keys acc
    ++ map fst (filter (fun f => negb (repeated (snd f))) fs).
Proof.
  induction fs as [|f fs IH]; intros acc Hnd Hfresh; simpl.
  - now rewrite app_nil_r.
  - inversion Hnd as [|? ? Hf Hnd']; subst.
    assert (Hkeys := add_field_key_order acc f (Hfresh _ (or_introl eq_refl))).
    rewrite IH; [|assumption|].
    + rewrite Hkeys. destruct (repeated (snd f)); simpl.
      * now rewrite app_nil_r.
      * now rewrite <- app_assoc.
    + intros n Hn. rewrite Hkeys, in_app_iff. intros [Hacc|Hnew].
      * apply (Hfresh n); [now right | assumption].
      * destruct (repeated (snd f)); [destruct Hnew|].
        destruct Hnew as [<-|[]]. contradiction.
Qed.

(** X1: the keys of [proto_to_dict] of a well-formed record come in the
    order of the fields of its descriptor: they are the names of the
    non-repeated fields, in that order. *)
Theorem proto_to_dict_key_order (m : Message) (Hwf : wf_message m = true) :
  dict_keys (proto_to_dict m)
  = map fst (filter (fun f => negb (repeated (snd f))) (fields m)).
Proof.
  destruct m as [fs]. rewrite proto_to_dict_eq. simpl fields.
  apply wf_message_fields in Hwf as (Hnd & _).
  rewrite fold_add_field_key_order; [reflexivity | assumption|].
  intros n _ [].
Qed.

Lemma proto_to_dict_key_order_witness :
  dict_keys (proto_to_dict Scenario.record0) = ["a"; "c"].
Proof. apply (proto_to_dict_key_order Scenario.record0). reflexivity. Defined.

Lemma fold_add_field_filter fs : forall acc,
  fold_left add_field fs acc
  = fold_left add_field (filter (fun f => negb (repeated (snd f))) fs) acc.
Proof.
  induction fs as [|[n v] fs IH]; intros acc; simpl; [reflexivity|].
  destruct v; simpl; rewrite IH; reflexivity.
Qed.

(** X2: [proto_to_dict] does not look at repeated fields: a record and the
    record without its repeated fields give the same dictionary, whatever the
    repeated fields hold. *)
Theorem proto_to_dict_ignores_repeated (fs : list (string * FieldValue)) :
  proto_to_dict (MkMessage fs)
  = proto_to_dict
      (MkMessage (filter (fun f => negb (repeated (snd f))) fs)).
Proof. rewrite !proto_to_dict_eq. apply fold_add_field_filter. Qed.

(** ** The loops of [explode_repeated] and [proto_explode] *)

(** X4: [proto_explode] builds its rows record by record: the loop returns
    exactly when [explode_field] returns on every record, and its rows are
    then the rows of the records, in the order of the records, the rows of
    the record at position [i] stamped [i] under "index.". *)
Theorem proto_explode_rows_in_record_order
  (records : list Message) (path : string) (rows : list Dict) :
  proto_explode_rows records path = Ok rows <->
  exists rss,
    Forall2 (fun m rs => explode_field m path "index" = Ok rs) records rss
    /\ rows
       = List.concat
           (map (fun '(i, rs) => map (dict_set "index." (VInt i)) rs)
              (enumerate rss)).
Proof. unfold proto_explode_rows. now rewrite proto_explode_from_Ok. Qed.

(** X5: [explode_repeated] returns exactly when [explode_field] returns on
    every element of the repeated field, and its rows are then the rows of
    the elements, in element order, the rows of element [i] stamped [i] under
    the index path. *)
Theorem explode_repeated_in_element_order
  (elements : list Message) (path index_path : string) (rows : list Dict) :
  explode_repeated elements path index_path = Ok rows <->
  exists rss,
    Forall2 (fun e rs => explode_field e path index_path = Ok rs)
      elements rss
    /\ rows
       = List.concat
           (map (fun '(i, rs) => map (dict_set index_path (VInt i)) rs)
              (enumerate rss)).
Proof. unfold explode_repeated. now rewrite explode_repeated_from_Ok. Qed.

Lemma proto_explode_from_app l1 : forall i l2 path acc,
  proto_explode_from i (l1 ++ l2) path acc
  = (rows <- proto_explode_from i l1 path acc ;;
     proto_explode_from (i + List.length l1) l2 path rows).
Proof.
  induction l1 as [|m l1 IH]; intros i l2 path acc; simpl.
  - now rewrite Nat.add_0_r.
  - destruct (explode_field m path "index") as [rs|e]; [|reflexivity].
    rewrite IH. now rewrite Nat.add_succ_r.
Qed.

(** X6: the rows of a sequence of records cut in two are the rows of the
    first part followed by the rows of the second part, the records of the
    second part counted from the length of the first on; an exception in the
    first part is the exception of the whole. *)
Theorem proto_explode_rows_app (l1 l2 : list Message) (path : string) :
  proto_explode_rows (l1 ++ l2) path
  = (rows <- proto_explode_rows l1 path ;;
     proto_explode_from (List.length l1) l2 path rows).
Proof. unfold proto_explode_rows. now rewrite proto_explode_from_app. Qed.

(** X7: [proto_explode] fails fast: the exception of the first record, in
    the order of the records, on which [explode_field] raises is the
    exception of the call, whatever the records after it, and no table is
    returned. *)
Theorem proto_explode_fails_fast
  (before after : list Message) (m : Message) (path : string)
  (err : Exception)
  (Hbefore : Forall (fun m0 => exists rows,
                         explode_field m0 path "index" = Ok rows) before)
  (Hraise : explode_field m path "index" = Raise err) :
  proto_explode (before ++ m :: after) path = Raise err.
Proof.
  unfold proto_explode, proto_explode_rows.
  now rewrite (proto_explode_from_Raise _ _ _ _ _ _ _ Hbefore Hraise).
Qed.

Lemma proto_explode_fails_fast_witness :
  proto_explode
    [Scenario.record0;
     MkMessage [("a", FScalar (SInt 3)); ("b", FScalar (SInt 4))];
     MkMessage [("a", FScalar (SInt 5))]]
    "b"
  = Raise (ValueError "Invalid path: . b cannot be traversed.").
Proof.
  apply (proto_explode_fails_fast [Scenario.record0]
           [MkMessage [("a", FScalar (SInt 5))]]).
  - repeat constructor. eexists. reflexivity.
  - reflexivity.
Defined.

(** X8: when the traversal comes to a singular scalar field, with segments
    of the path left or not, [explode_field] and [proto_explode] raise the
    [ValueError] "Invalid path: <rest>. <segment> cannot be traversed.", where
    <segment> is the name of the scalar field and <rest> is what is left of
    the path after it (not the whole path). *)
Theorem scalar_field_raises
  (before after : list Message) (m m' : Message)
  (path path' idx' cur sep rest : string) (s : Scalar)
  (Hbefore : Forall (fun m0 => exists rows,
                         explode_field m0 path "index" = Ok rows) before)
  (Hcalls : calls m path "index" m' path' idx')
  (Hsegment : partition path' = (cur, sep, rest))
  (Hscalar : getattr m' cur = Some (FScalar s)) :
  explode_field m path "index"
  = Raise (ValueError
             ("Invalid path: " ++ rest ++ ". " ++ cur
              ++ " cannot be traversed.")%string)
  /\ proto_explode (before ++ m :: after) path
     = Raise (ValueError
                ("Invalid path: " ++ rest ++ ". " ++ cur
                 ++ " cannot be traversed.")%string).
Proof.
  assert (He : explode_field m path "index"
               = Raise (ValueError (invalid_path rest cur))).
  { apply (explode_field_calls _ _ _ _ _ _ Hcalls).
    now rewrite explode_field_eq, Hsegment, Hscalar. }
  split; [exact He|].
  unfold proto_explode, proto_explode_rows.
  now rewrite (proto_explode_from_Raise _ _ _ _ _ _ _ Hbefore He).
Qed.

Lemma scalar_field_raises_witness :
  proto_explode [Scenario.record0; Scenario.record1] "c.d.e"
  = Raise (ValueError "Invalid path: e. d cannot be traversed.").
Proof.
  apply (scalar_field_raises [] [Scenario.record1] Scenario.record0
           (MkMessage [("d", FScalar (SStr "x"))])
           "c.d.e" "d.e" "index.c" "d" "." "e" (SStr "x")).
  - constructor.
  - eapply calls_singular; [reflexivity | reflexivity | apply calls_here].
  - reflexivity.
  - reflexivity.
Defined.

(** ** Paths *)

Lemma partition_append_dot path : forall cur sep rest,
  partition path = (cur, sep, rest) ->
  partition (path ++ ".")
  = (cur, ".", if String.eqb sep "" then "" else (rest ++ ".")%string).
Proof.
  induction path as [|c path IH]; simpl; intros cur sep rest H.
  - now inversion H.
  - destruct (Ascii.eqb c dot).
    + now inversion H.
    + destruct (partition path) as [[b s] a]. inversion H; subst.
      now rewrite (IH _ _ _ eq_refl).
Qed.

Lemma partition_segment cur rest :
  has_dot cur = false ->
  partition (cur ++ "." ++ rest) = (cur, ".", rest).
Proof.
  induction cur as [|c cur IH]; [reflexivity|].
  cbn [has_dot append partition].
  destruct (Ascii.eqb c dot); cbn [orb]; [discriminate|].
  intros H. specialize (IH H). cbn [append] in IH. now rewrite IH.
Qed.

Lemma ends_with_dot_cons c s :
  s <> "" -> ends_with_dot (String c s) = ends_with_dot s.
Proof. destruct s; [congruence | reflexivity]. Qed.

Lemma ends_with_dot_append a rest :
  ends_with_dot (a ++ "." ++ rest)
  = if String.eqb rest "" then true else ends_with_dot rest.
Proof.
  induction a as [|c a IH].
  - now destruct rest.
  - cbn [append]. rewrite ends_with_dot_cons; [exact IH|].
    destruct a; discriminate.
Qed.

Lemma append_dot_nonempty (rest : string) :
  String.eqb (rest ++ ".") "" = false.
Proof. now destruct rest. Qed.

Lemma explode_trailing_dot : forall m path idx rows,
  ends_with_dot path = false ->
  explode_field m path idx = Ok rows ->
  explode_field m (path ++ ".") idx = Ok rows.
Proof.
  induction m as [fs IH] using message_induction.
  intros path idx rows Hend. rewrite !explode_field_eq.
  destruct (partition path) as [[cur sep] rest] eqn:Hp.
  rewrite (partition_append_dot _ _ _ _ Hp).
  destruct (partition_spec _ _ _ _ Hp) as [(-> & -> & _)|(-> & Hpath)];
    [simpl; auto|]. simpl String.eqb.
  rewrite Hpath, ends_with_dot_append in Hend.
  destruct (String.eqb rest "") eqn:Hrest; [discriminate|].
  rewrite append_dot_nonempty.
  destruct (getattr (MkMessage fs) cur) as [field|] eqn:Hg; [|discriminate].
  pose proof (lookup_field_In _ _ _ Hg) as Hin.
  rewrite Forall_forall in IH. specialize (IH _ Hin). simpl in IH.
  destruct field as [s|nested|elements|elements]; try discriminate.
  - now apply IH.
  - now destruct elements.
  - unfold explode_repeated. rewrite !explode_repeated_from_Ok.
    intros (rss & HF & ->). exists rss. split; [|reflexivity].
    rewrite Forall_forall in IH. clear Hg Hin.
    induction HF as [|e rs elements rss He HF IHF]; constructor.
    + apply IH; [now left | assumption | assumption].
    + apply IHF. intros x Hx. apply IH. now right.
Qed.

(** X9: a dot after the last segment of a path changes nothing: when
    [proto_explode] builds its rows for a path that does not end in a dot, it
    builds the same rows for the path with a dot after it. *)
Theorem proto_explode_rows_trailing_dot
  (records : list Message) (path : string) (rows : list Dict)
  (Hend : ends_with_dot path = false)
  (Hrows : proto_explode_rows records path = Ok rows) :
  proto_explode_rows records (path ++ ".") = Ok rows.
Proof.
  unfold proto_explode_rows in *. apply proto_explode_from_Ok in Hrows.
  apply proto_explode_from_Ok. destruct Hrows as (rss & HF & ->).
  exists rss. split; [|reflexivity].
  eapply Forall2_impl; [|exact HF]. intros m rs. now apply explode_trailing_dot.
Qed.

Lemma proto_explode_rows_trailing_dot_witness :
  proto_explode_rows [Scenario.nested_record] "a.b."
  = Ok [[("index.a.b", VInt 0); ("b", VScalar (SInt 10)); ("index.a", VInt 0);
         ("index.", VInt 0)];
        [("index.a.b", VInt 1); ("b", VScalar (SInt 20)); ("index.a", VInt 0);
         ("index.", VInt 0)];
        [("index.a.b", VInt 0); ("b", VScalar (SInt 30)); ("index.a", VInt 1);
         ("index.", VInt 0)]].
Proof.
  apply (proto_explode_rows_trailing_dot [Scenario.nested_record] "a.b");
    reflexivity.
Defined.

Lemma concat_cons seg seg' segs :
  String.concat "." (seg :: seg' :: segs)
  = (seg ++ "." ++ String.concat "." (seg' :: segs))%string.
Proof. reflexivity. Qed.

(** X10: a path that starts with the names of singular message fields is
    resolved from the message they lead to, with the rest of the path, and the
    index path grows by these names, dot-separated. *)
Theorem explode_field_through_singular
  (segs : list string) (m m' : Message) (rest idx : string)
  (Hsegs : segs <> [])
  (Hdots : Forall (fun seg => has_dot seg = false) segs)
  (Hdescend : descend m segs = Some m') :
  explode_field m (String.concat "." segs ++ "." ++ rest) idx
  = explode_field m' rest (idx ++ "." ++ String.concat "." segs).
Proof.
  revert m idx Hdescend.
  induction segs as [|seg segs IH]; intros m idx Hd; [congruence|].
  inversion Hdots as [|? ? Hseg Hdots']; subst.
  simpl in Hd.
  destruct (getattr m seg) as [[s|nested|ss|es]|] eqn:Hg; try discriminate.
  destruct segs as [|seg' segs].
  - simpl in Hd. injection Hd as <-. cbn [String.concat].
    now rewrite explode_field_eq, (partition_segment _ _ Hseg), Hg.
  - rewrite concat_cons, !append_assoc.
    rewrite explode_field_eq, (partition_segment _ _ Hseg), Hg.
    rewrite IH by (assumption || discriminate).
    now rewrite !append_assoc.
Qed.

Lemma explode_field_through_singular_witness :
  explode_field
    (MkMessage [("c", FMessage (MkMessage [("e", FMessage Scenario.record0)]))])
    "c.e.b" "index"
  = explode_field Scenario.record0 "b" "index.c.e".
Proof.
  apply (explode_field_through_singular ["c"; "e"] _ Scenario.record0 "b"
           "index").
  - discriminate.
  - repeat constructor.
  - reflexivity.
Defined.

(** ** The columns of [proto_normalize] *)

Lemma fold_add_field_entries fs : forall acc k v,
  In (k, v) (fold_left add_field fs acc) ->
  In (k, v) acc
  \/ (exists s, v = VScalar s /\ In (k, FScalar s) fs)
  \/ (exists nested,
         v = VDict (proto_to_dict nested) /\ In (k, FMessage nested) fs).
Proof.
  induction fs as [|[n fv] fs IH]; intros acc k v; simpl; [auto|].
  intros H. apply IH in H as [H|[(s & -> & H)|(nested & -> & H)]];
    [|right; left; eauto|right; right; eauto].
  unfold add_field in H. simpl in H.
  destruct fv as [s|nested|ss|es]; auto;
    apply In_dict_set in H as [[-> ->]|H]; auto.
  - right. left. exists s. auto.
  - right. right. exists nested. auto.
Qed.

Lemma proto_to_dict_entries m k v :
  In (k, v) (proto_to_dict m) ->
  (exists s, v = VScalar s /\ In (k, FScalar s) (fields m))
  \/ (exists nested,
         v = VDict (proto_to_dict nested)
         /\ In (k, FMessage nested) (fields m)).
Proof.
  destruct m as [fs]. rewrite proto_to_dict_eq. intros H.
  apply fold_add_field_entries in H as [[]|H]. exact H.
Qed.

Lemma field_name_nonempty m k v :
  wf_message m = true -> In (k, v) (fields m) -> k <> "".
Proof.
  destruct m as [fs]. intros Hwf Hin ->.
  apply wf_message_fields in Hwf as (_ & Hne & _).
  apply Hne. apply in_map_iff. now exists ("", v).
Qed.

Lemma normalise_json_shift : forall v a key_string k,
  key_string <> "" ->
  In k (dict_keys (Pandas.normalise_json v (a ++ "." ++ key_string) [])) <->
  exists b,
    k = (a ++ "." ++ b)%string
    /\ In b (dict_keys (Pandas.normalise_json v key_string [])).
Proof.
  induction v as [s|d IH] using pyval_induction; intros a ks k Hks.
  - simpl. split.
    + intros [<-|[]]. exists ks. auto.
    + intros (b & -> & [<-|[]]). now left.
  - rewrite normalise_json_dict_keys. split.
    + intros ([k' v'] & Hin & Hk).
      rewrite Forall_forall in IH. specialize (IH _ Hin). cbn [fst snd] in IH, Hk.
      replace (Pandas.new_key (a ++ "." ++ ks) k')
        with (a ++ "." ++ (ks ++ "." ++ k'))%string in Hk.
      * apply IH in Hk as (b & -> & Hb); [|destruct ks; discriminate].
        exists b. split; [reflexivity|].
        apply normalise_json_dict_keys. exists (k', v'). split; [assumption|].
        cbn [fst snd]. unfold Pandas.new_key.
        apply String.eqb_neq in Hks. now rewrite Hks.
      * unfold Pandas.new_key.
        replace (String.eqb (a ++ "." ++ ks) "") with false
          by (destruct a; reflexivity).
        now rewrite !append_assoc.
    + intros (b & -> & Hb).
      apply normalise_json_dict_keys in Hb as ([k' v'] & Hin & Hb).
      exists (k', v'). split; [assumption|].
      rewrite Forall_forall in IH. specialize (IH _ Hin). cbn [fst snd] in IH, Hb |- *.
      unfold Pandas.new_key in *.
      replace (String.eqb (a ++ "." ++ ks) "") with false
        by (destruct a; reflexivity).
      pose proof Hks as Hks'. apply String.eqb_neq in Hks'.
      rewrite Hks' in Hb.
      replace ((a ++ "." ++ ks) ++ "." ++ k')%string
        with (a ++ "." ++ (ks ++ "." ++ k'))%string
        by now rewrite !append_assoc.
      apply IH; [destruct ks; discriminate|]. eauto.
Qed.

(** The keys a nested dictionary gives under the name [k0] are the keys the
    dictionary gives by itself, after [k0] and a dot. *)
Lemma normalise_json_nested sub k0 k :
  k0 <> "" ->
  (forall k' v', In (k', v') sub -> k' <> "") ->
  In k (dict_keys (Pandas.normalise_json (VDict sub) k0 [])) <->
  exists b,
    k = (k0 ++ "." ++ b)%string
    /\ In b (dict_keys (Pandas.normalise_json_ordered sub)).
Proof.
  intros Hk0 Hsub. rewrite normalise_json_dict_keys.
  assert (Hkey : forall k', Pandas.new_key k0 k' = (k0 ++ "." ++ k')%string).
  { intros k'. unfold Pandas.new_key.
    apply String.eqb_neq in Hk0. now rewrite Hk0. }
  split.
  - intros ([k' v'] & Hin & Hk). cbn [fst snd] in Hk. rewrite Hkey in Hk.
    apply normalise_json_shift in Hk as (b & -> & Hb); [|eauto].
    exists b. split; [reflexivity|].
    apply normalise_json_ordered_keys. destruct v' as [s|sub'].
    + left. simpl in Hb. destruct Hb as [<-|[]]. eauto.
    + right. eauto.
  - intros (b & -> & Hb).
    apply normalise_json_ordered_keys in Hb
      as [[s Hin]|(k' & sub' & Hin & Hb)].
    + exists (b, VScalar s). split; [assumption|]. cbn [fst snd]. rewrite Hkey.
      apply normalise_json_shift; [eauto|]. exists b. split; [reflexivity|].
      simpl. now left.
    + exists (k', VDict sub'). split; [assumption|]. cbn [fst snd]. rewrite Hkey.
      apply normalise_json_shift; [eauto|]. eauto.
Qed.

Lemma proto_to_dict_scalar_entry m k s :
  wf_message m = true -> In (k, FScalar s) (fields m) ->
  dict_get k (proto_to_dict m) = Some (VScalar s).
Proof.
  destruct m as [fs]. intros Hwf Hin. rewrite proto_to_dict_eq.
  apply wf_message_fields in Hwf as (Hnd & _).
  rewrite (fold_add_field_get _ _ _ _ Hnd Hin). unfold add_field. simpl.
  now rewrite String.eqb_refl.
Qed.

Lemma proto_to_dict_message_entry m k nested :
  wf_message m = true -> In (k, FMessage nested) (fields m) ->
  dict_get k (proto_to_dict m) = Some (VDict (proto_to_dict nested)).
Proof.
  destruct m as [fs]. intros Hwf Hin. rewrite proto_to_dict_eq.
  apply wf_message_fields in Hwf as (Hnd & _).
  rewrite (fold_add_field_get _ _ _ _ Hnd Hin). unfold add_field. simpl.
  now rewrite String.eqb_refl.
Qed.

Lemma wf_nested m k nested :
  wf_message m = true -> In (k, FMessage nested) (fields m) ->
  wf_message nested = true.
Proof.
  destruct m as [fs]. intros Hwf Hin.
  apply wf_message_fields in Hwf as (_ & _ & Hn & _). eauto.
Qed.

Lemma proto_to_dict_key_nonempty m k v :
  wf_message m = true -> In (k, v) (proto_to_dict m) -> k <> "".
Proof.
  intros Hwf Hin.
  apply proto_to_dict_entries in Hin as [(s & _ & Hin)|(n & _ & Hin)];
    eapply (field_name_nonempty m); eauto.
Qed.

(** The columns one record gives. *)
Lemma record_columns m c :
  wf_message m = true ->
  In c (dict_keys (Pandas.normalise_json_ordered (proto_to_dict m))) <->
  (exists s, In (c, FScalar s) (fields m))
  \/ (exists k0 nested b,
         In (k0, FMessage nested) (fields m)
         /\ c = (k0 ++ "." ++ b)%string
         /\ In b (dict_keys
                    (Pandas.normalise_json_ordered (proto_to_dict nested)))).
Proof.
  intros Hwf. rewrite normalise_json_ordered_keys. split.
  - intros [[s Hin]|(k0 & sub & Hin & Hc)].
    + apply proto_to_dict_entries in Hin
        as [(s' & [= <-] & Hin)|(nested & [=] & _)]. eauto.
    + apply proto_to_dict_entries in Hin
        as [(s' & [=] & _)|(nested & [= ->] & Hin)].
      right. exists k0, nested.
      apply normalise_json_nested in Hc as (b & -> & Hb).
      * eauto.
      * eapply field_name_nonempty; eauto.
      * intros k' v'. apply proto_to_dict_key_nonempty.
        eapply wf_nested; eauto.
  - intros [[s Hin]|(k0 & nested & b & Hin & -> & Hb)].
    + left. exists s. apply dict_get_Some_In.
      now apply proto_to_dict_scalar_entry.
    + right. exists k0, (proto_to_dict nested). split.
      * apply dict_get_Some_In. now apply proto_to_dict_message_entry.
      * apply normalise_json_nested; eauto.
        -- eapply field_name_nonempty; eauto.
        -- intros k' v'. apply proto_to_dict_key_nonempty.
           eapply wf_nested; eauto.
Qed.

(** X11: the columns of [proto_normalize] are the columns its records give,
    and a record gives a column for every singular scalar field, named as the
    field, and, for every singular message field, the columns of the nested
    record, each after the name of the field and a dot.  No column is made for
    a repeated field. *)
Theorem proto_normalize_columns
  (records : list Message) (c : string)
  (Hwf : Forall (fun m => wf_message m = true) records) :
  In c (Pandas.columns (proto_normalize records)) <->
  exists m,
    In m records
    /\ ((exists s, In (c, FScalar s) (fields m))
        \/ (exists k0 nested b,
               In (k0, FMessage nested) (fields m)
               /\ c = (k0 ++ "." ++ b)%string
               /\ In b (Pandas.columns (proto_normalize [nested])))).
Proof.
  rewrite Forall_forall in Hwf.
  assert (Hone : forall n b,
             In b (Pandas.columns (proto_normalize [n])) <->
             In b (dict_keys
                     (Pandas.normalise_json_ordered (proto_to_dict n)))).
  { intros n b. unfold proto_normalize, Pandas.json_normalize. simpl.
    rewrite union_keys_In. simpl. split.
    - intros (r & [<-|[]] & H). exact H.
    - intros H. eauto. }
  unfold proto_normalize at 1, Pandas.json_normalize. simpl.
  rewrite union_keys_In. split.
  - intros (record & Hrec & Hc).
    apply in_map_iff in Hrec as (d & <- & Hd).
    apply in_map_iff in Hd as (m & <- & Hm).
    exists m. split; [assumption|].
    apply (record_columns _ _ (Hwf _ Hm)) in Hc
      as [H|(k0 & nested & b & H1 & H2 & H3)]; [now left|].
    right. exists k0, nested, b.
    split; [assumption|]. split; [assumption|]. now apply Hone.
  - intros (m & Hm & H).
    exists (Pandas.normalise_json_ordered (proto_to_dict m)). split.
    + apply in_map, in_map. exact Hm.
    + apply (record_columns _ _ (Hwf _ Hm)).
      destruct H as [H|(k0 & nested & b & H1 & H2 & H3)]; [now left|].
      right. exists k0, nested, b.
      split; [assumption|]. split; [assumption|]. now apply Hone.
Qed.

Lemma proto_normalize_columns_witness :
  In "c.d"
    (Pandas.columns (proto_normalize [Scenario.record0; Scenario.record1])).
Proof.
  apply (proto_normalize_columns [Scenario.record0; Scenario.record1] "c.d").
  - repeat constructor.
  - exists Scenario.record0. split; [now left|]. right.
    exists "c", (MkMessage [("d", FScalar (SStr "x"))]), "d".
    split; [simpl; auto|]. split; [reflexivity|]. simpl. auto.
Defined.

Lemma fold_dict_set_get_other {V : Type} (items : list (string * V)) :
  forall acc k,
    ~ In k (dict_keys items) ->
    dict_get k
      (fold_left (fun d item => dict_set (fst item) (snd item) d) items acc)
    = dict_get k acc.
Proof.
  induction items as [|[k' v'] items IH]; intros acc k Hk; simpl in *;
    [reflexivity|].
  rewrite IH by tauto. apply dict_get_set_other. tauto.
Qed.

Lemma top_dict_get d k s :
  dict_get k d = Some (VScalar s) ->
  dict_get k
    (flat_map (fun item : string * PyVal =>
                 match snd item with
                 | VScalar s => [(fst item, s)]
                 | VDict _ => []
                 end) d)
  = Some s.
Proof.
  induction d as [|[k' v'] d IH]; simpl; [discriminate|].
  destruct (String.eqb_spec k' k) as [->|Hne].
  - intros [= ->]. simpl. now rewrite String.eqb_refl.
  - intros H. destruct v' as [s'|sub]; simpl; [|auto].
    apply String.eqb_neq in Hne. rewrite Hne. auto.
Qed.

(** ** The table of an exploded repeated scalar field *)

Lemma ascii_compare_refl c : Ascii.compare c c = Eq.
Proof. unfold Ascii.compare. apply N.compare_refl. Qed.

Lemma compare_append_gt a s : s <> "" -> String.compare (a ++ s) a = Gt.
Proof.
  intros Hs. induction a as [|c a IH]; simpl.
  - destruct s; [congruence | reflexivity].
  - now rewrite ascii_compare_refl.
Qed.

Lemma prefix_split a : forall c,
  String.prefix a c = true -> exists b, c = (a ++ b)%string.
Proof.
  induction a as [|x a IH]; intros c; simpl.
  - destruct c; intros _; eauto.
  - destruct c as [|y c]; simpl; [discriminate|].
    destruct (Ascii.ascii_dec x y) as [->|]; [|discriminate].
    intros H. destruct (IH _ H) as [b ->]. eauto.
Qed.

Lemma sorted_pair a b : String.leb a b = false -> sorted [a; b] = [b; a].
Proof.
  intros Hab. pose proof (sorted_Sorted [a; b]) as HS.
  assert (HP : Permutation [a; b] (sorted [a; b]))
    by apply StringSort.Permuted_sort.
  apply Permutation_length_2_inv in HP as [E|E]; [|exact E].
  rewrite E in HS. inversion HS as [|? ? _ Hhd]; subst.
  inversion Hhd; subst. congruence.
Qed.

Lemma add_keys_present ks : forall acc,
  (forall k, In k ks -> In k acc) -> fold_left Pandas.add_key ks acc = acc.
Proof.
  induction ks as [|k ks IH]; intros acc H; simpl; [reflexivity|].
  unfold Pandas.add_key at 2.
  replace (Pandas.contains k acc) with true
    by (symmetry; apply contains_In; apply H; now left).
  apply IH. intros k' Hk'. apply H. now right.
Qed.

Lemma add_keys_fresh ks : forall acc,
  NoDup ks -> (forall k, In k ks -> ~ In k acc) ->
  fold_left Pandas.add_key ks acc = acc ++ ks.
Proof.
  induction ks as [|k ks IH]; intros acc Hnd H; simpl.
  - now rewrite app_nil_r.
  - inversion Hnd as [|? ? Hk Hnd']; subst. unfold Pandas.add_key at 2.
    destruct (Pandas.contains k acc) eqn:E.
    + apply contains_In in E. exfalso. apply (H k); [now left | assumption].
    + rewrite IH; [now rewrite <- app_assoc | assumption|].
      intros k' Hk' Hin. apply in_app_iff in Hin as [Hin|[<-|[]]].
      * apply (H k'); [now right | assumption].
      * contradiction.
Qed.

Lemma union_keys_same ks (records : list (list (string * Scalar))) :
  records <> [] ->
  Forall (fun r => dict_keys r = ks) records ->
  NoDup ks ->
  Pandas.union_keys records = ks.
Proof.
  intros Hne HF Hnd. destruct records as [|r records]; [congruence|].
  pose proof (Forall_inv HF) as Hr. pose proof (Forall_inv_tail HF) as HF'.
  cbv beta in Hr. unfold Pandas.union_keys. simpl.
  rewrite Hr, add_keys_fresh; [|assumption | intros k _ []]. simpl.
  clear Hne HF Hr. induction HF' as [|r' records Hr' _ IH]; simpl;
    [reflexivity|].
  rewrite Hr', add_keys_present by auto. exact IH.
Qed.

Lemma map_enumerate_snd {A B : Type} (h : A -> B) (l : list A) :
  map (fun p : nat * A => h (snd p)) (enumerate l) = map h l.
Proof.
  unfold enumerate. generalize 0.
  induction l as [|x l IH]; intros n; simpl; [|rewrite IH]; reflexivity.
Qed.

Section ScalarTable.
Variables key c : string.
Hypothesis key_c : String.eqb key c = false.
Hypothesis key_top : String.eqb key "index." = false.
Hypothesis c_top : String.eqb c "index." = false.

Lemma scalar_row i v j :
  dict_set "index." (VInt j) (dict_set c (VScalar v) (dict_set key (VInt i) []))
  = [(key, VInt i); (c, VScalar v); ("index.", VInt j)].
Proof. simpl. rewrite key_c. simpl. now rewrite key_top, c_top. Qed.

Lemma stamped_scalar_rows vss : forall j0,
  stamped "index." j0
    (map (fun vs => dicts_from_repeated_field (FRepScalar vs) c key) vss)
  = map (fun t : nat * Scalar * nat =>
           let '(i, v, j) := t in
           [(key, VInt i); (c, VScalar v); ("index.", VInt j)])
      (List.concat
         (map (fun '(j, vs) => map (fun '(i, v) => (i, v, j)) (enumerate vs))
            (combine (seq j0 (List.length vss)) vss))).
Proof.
  induction vss as [|vs vss IH]; intros j0; [reflexivity|].
  cbn [map List.length seq combine List.concat].
  rewrite stamped_cons, map_app, IH. f_equal.
  unfold dicts_from_repeated_field. rewrite !map_map.
  apply map_ext. intros [i v]. apply scalar_row.
Qed.

Lemma scalar_table (T : list (nat * Scalar * nat)) :
  T <> [] ->
  String.prefix "index." key = true ->
  String.prefix "index." c = false ->
  String.leb key "index." = false ->
  (df0 <- Pandas.set_index
            (sorted
               (filter (String.prefix "index.")
                  (Pandas.columns
                     (Pandas.json_normalize
                        (map (fun t : nat * Scalar * nat =>
                                let '(i, v, j) := t in
                                [(key, VInt i); (c, VScalar v);
                                 ("index.", VInt j)]) T)))))
            (Pandas.json_normalize
               (map (fun t : nat * Scalar * nat =>
                       let '(i, v, j) := t in
                       [(key, VInt i); (c, VScalar v); ("index.", VInt j)])
                  T)) ;;
   Pandas.rename_levels "index." "index" df0)
  = Ok (Pandas.mkFrame [Some "index"; Some key] [c]
          (map (fun t : nat * Scalar * nat =>
                  let '(i, v, j) := t in
                  Pandas.mkRow
                    [Some (SInt (Z.of_nat j)); Some (SInt (Z.of_nat i))]
                    [Some v]) T)).
Proof.
  intros HT Hpk Hpc Hleb.
  assert (c_key : String.eqb c key = false)
    by (rewrite String.eqb_sym; exact key_c).
  assert (top_key : String.eqb "index." key = false)
    by (rewrite String.eqb_sym; exact key_top).
  assert (top_c : String.eqb "index." c = false)
    by (rewrite String.eqb_sym; exact c_top).
  unfold Pandas.json_normalize. rewrite map_map.
  assert (Hflat :
    map (fun t : nat * Scalar * nat =>
           Pandas.normalise_json_ordered
             (let '(i, v, j) := t in
              [(key, VInt i); (c, VScalar v); ("index.", VInt j)])) T
    = map (fun t : nat * Scalar * nat =>
             let '(i, v, j) := t in
             [(key, SInt (Z.of_nat i)); (c, v);
              ("index.", SInt (Z.of_nat j))]) T).
  { apply map_ext. intros [[i v] j].
    reflexivity. }
  rewrite Hflat.
  assert (Hcols :
    Pandas.union_keys
      (map (fun t : nat * Scalar * nat =>
              let '(i, v, j) := t in
              [(key, SInt (Z.of_nat i)); (c, v);
               ("index.", SInt (Z.of_nat j))]) T)
    = [key; c; "index."]).
  { apply union_keys_same.
    - destruct T; [congruence | discriminate].
    - apply Forall_forall. intros r Hr.
      apply in_map_iff in Hr as ([[i v] j] & <- & _). reflexivity.
    - repeat constructor; simpl.
      + apply String.eqb_neq in key_c, key_top. intuition congruence.
      + apply String.eqb_neq in c_top. intuition congruence.
      + tauto. }
  assert (Hpt : String.prefix "index." "index." = true) by reflexivity.
  rewrite Hcols. cbn [Pandas.columns filter].
  rewrite Hpk, Hpc, Hpt. cbv iota.
  rewrite (sorted_pair _ _ Hleb).
  unfold Pandas.set_index, bind, Pandas.rename_levels.
  cbn [Pandas.index_names Pandas.columns Pandas.rows map filter].
  unfold Pandas.contains. cbn [existsb].
  rewrite key_top, c_top, c_key, !String.eqb_refl. cbn [orb negb].
  unfold Pandas.rename_level. rewrite key_top, String.eqb_refl.
  f_equal. f_equal.
  transitivity
    (map (fun p : nat * list (string * Scalar) =>
            Pandas.mkRow
              [dict_get "index." (snd p); dict_get key (snd p)]
              [dict_get c (snd p)])
       (enumerate
          (map (fun t : nat * Scalar * nat =>
                  let '(i, v, j) := t in
                  [(key, SInt (Z.of_nat i)); (c, v);
                   ("index.", SInt (Z.of_nat j))]) T))).
  - rewrite map_map. apply map_ext. intros [n record].
    unfold Pandas.cell.
    cbn [Pandas.columns Pandas.cells combine map dict_get snd].
    rewrite key_top, c_top, key_c, !String.eqb_refl. reflexivity.
  - rewrite (map_enumerate_snd
               (fun record : list (string * Scalar) =>
                  Pandas.mkRow
                    [dict_get "index." record; dict_get key record]
                    [dict_get c record])).
    rewrite map_map. apply map_ext. intros [[i v] j].
    cbn [dict_get].
    rewrite key_top, c_top, key_c, !String.eqb_refl. reflexivity.
Qed.
End ScalarTable.

(** X13: exploding a repeated field of scalars.  When the path leads every
    record, through singular message fields, to a repeated scalar field named
    [c], and some record has an element, [proto_explode] returns the table
    with the single column [c], the row key ("index", index key of the field),
    and one row per element, in the order of the records and then of the
    elements: the row of element [i] of record [j] is keyed [(j, i)] and holds
    the element. *)
Theorem explode_scalar_table
  (records : list Message) (path c key : string) (vss : list (list Scalar))
  (Hrecords : Forall2 (fun m vs =>
                         wf_message m = true
                         /\ resolves m path "index" (FRepScalar vs) c "" key)
                records vss)
  (Helement : element_positions vss <> []) :
  proto_explode records path
  = Ok (Pandas.mkFrame [Some "index"; Some key] [c]
          (map (fun t : nat * Scalar * nat =>
                  let '(i, v, j) := t in
                  Pandas.mkRow
                    [Some (SInt (Z.of_nat j)); Some (SInt (Z.of_nat i))]
                    [Some v])
             (element_positions vss))).
Proof.
  assert (Hrows : proto_explode_rows records path
                  = Ok (stamped "index." 0
                          (map (fun vs =>
                                  dicts_from_repeated_field (FRepScalar vs) c
                                    key) vss))).
  { unfold proto_explode_rows. apply proto_explode_from_Ok.
    eexists. split; [|reflexivity]. clear Helement.
    induction Hrecords as [|m vs records vss [_ Hres] _ IH]; constructor.
    - now destruct (resolves_terminal_rows _ _ _ _ _ _ Hres).
    - exact IH. }
  destruct Hrecords as [|m vs records vss [Hwf Hres] _];
    [now contradiction Helement|].
  pose proof (resolves_key_not_top _ _ _ _ _ _ Hres Hwf) as Hkt.
  destruct (resolves_terminal_partition _ _ _ _ _ _ _ Hres)
    as (path' & idx' & sep & Hp & Hkey).
  pose proof (partition_no_dot _ _ _ _ Hp) as Hdot.
  assert (Hkc : key <> c).
  { rewrite Hkey. eapply index_path_not_field; eauto. }
  assert (Hct : c <> "index.") by (intros ->; discriminate).
  destruct (resolves_first_field _ _ _ _ _ _ _ Hres) as [v0 Hv0].
  apply (wf_getattr_nonempty _ _ _ Hwf) in Hv0.
  destruct (resolves_key _ _ _ _ _ _ _ Hres) as [s Hs].
  assert (Hform : exists t, t <> "" /\ key = ("index." ++ t)%string).
  { exists (fst (fst (partition path)) ++ s)%string. split; [|exact Hs].
    destruct (fst (fst (partition path))); [congruence | discriminate]. }
  destruct Hform as (t & Ht & Hkt').
  unfold proto_explode. rewrite Hrows. unfold bind at 1. cbv zeta.
  rewrite (stamped_scalar_rows key c).
  - apply (scalar_table key c).
    + now apply String.eqb_neq.
    + now apply String.eqb_neq.
    + now apply String.eqb_neq.
    + exact Helement.
    + rewrite Hkt'. apply prefix_append.
    + destruct (String.prefix "index." c) eqn:E; [|reflexivity].
      apply prefix_split in E as [b ->].
      rewrite has_dot_append in Hdot. discriminate.
    + unfold String.leb. rewrite Hkt'.
      now rewrite (compare_append_gt "index." t Ht).
  - now apply String.eqb_neq.
  - now apply String.eqb_neq.
  - now apply String.eqb_neq.
Qed.

Lemma explode_scalar_table_witness :
  proto_explode [Scenario.record0; Scenario.record1] "b"
  = Ok (Pandas.mkFrame [Some "index"; Some "index.b"] ["b"]
          (map (fun t : nat * Scalar * nat =>
                  let '(i, v, j) := t in
                  Pandas.mkRow
                    [Some (SInt (Z.of_nat j)); Some (SInt (Z.of_nat i))]
                    [Some v])
             (element_positions [[SInt 10; SInt 20]; [SInt 30]]))).
Proof.
  apply (explode_scalar_table [Scenario.record0; Scenario.record1] "b" "b"
           "index.b" [[SInt 10; SInt 20]; [SInt 30]]).
  - repeat constructor;
      apply (resolves_repeated _ "b" "index" "b" "" ""); reflexivity.
  - discriminate.
Defined.

(** ** The table of two repetition levels *)

Lemma proto_explode_table_witness :
  exists df,
    proto_explode [Scenario.nested_record] "a.b" = Ok df
    /\ List.length (Pandas.rows df) = 3.
Proof.
  apply (proto_explode_table [Scenario.nested_record] "a.b"
           [[("index.a.b", VInt 0); ("b", VScalar (SInt 10));
             ("index.a", VInt 0); ("index.", VInt 0)];
            [("index.a.b", VInt 1); ("b", VScalar (SInt 20));
             ("index.a", VInt 0); ("index.", VInt 0)];
            [("index.a.b", VInt 0); ("b", VScalar (SInt 30));
             ("index.a", VInt 1); ("index.", VInt 0)]]).
  - repeat constructor.
  - reflexivity.
  - discriminate.
Defined.

(** ** The index key of the exploded field *)

Lemma resolves_index_key m path idx field c key :
  resolves m path idx field c "" key ->
  wf_message m = true ->
  ends_with_dot path = false ->
  key = (idx ++ "." ++ path)%string.
Proof.
  remember "" as r eqn:Er.
  induction 1 as [m path idx cur sep rest field Hp Hg Hl
                 |m path idx cur sep rest nested field c r ip Hp Hg Hr IH];
    intros Hwf Hend; subst.
  - destruct (partition_spec _ _ _ _ Hp) as [(_ & _ & ->)|(_ & ->)];
      [reflexivity|].
    rewrite ends_with_dot_append in Hend. discriminate.
  - pose proof (wf_getattr_nested _ _ _ Hwf Hg) as Hwfn.
    destruct (partition_spec _ _ _ _ Hp) as [(_ & -> & _)|(_ & ->)].
    + exfalso. destruct (resolves_first_field _ _ _ _ _ _ _ Hr) as [v Hv].
      simpl in Hv. now apply (wf_getattr_nonempty _ _ _ Hwfn) in Hv.
    + rewrite ends_with_dot_append in Hend.
      destruct (String.eqb rest ""); [discriminate|].
      rewrite (IH eq_refl Hwfn Hend). now rewrite !append_assoc.
Qed.

(** X16: the index key of the exploded field is the path itself after
    "index.": when the path, not ending in a dot, leads a well-formed record
    through singular message fields to a repeated field, the rows of the
    record hold the positions of the elements under "index." followed by the
    path. *)
Theorem terminal_index_key
  (m : Message) (path c key : string) (field : FieldValue)
  (Hwf : wf_message m = true)
  (Hend : ends_with_dot path = false)
  (Hresolves : resolves m path "index" field c "" key) :
  key = ("index." ++ path)%string
  /\ exists rows,
       explode_field m path "index" = Ok rows
       /\ map (dict_get ("index." ++ path)%string) rows
          = map (fun i => Some (VInt i)) (seq 0 (field_length field)).
Proof.
  pose proof (resolves_index_key _ _ _ _ _ _ Hresolves Hwf Hend) as Hkey.
  change ("index" ++ "." ++ path)%string with ("index." ++ path)%string
    in Hkey.
  split; [exact Hkey|].
  destruct (resolves_terminal_rows _ _ _ _ _ _ Hresolves) as [Hok Hidx].
  rewrite <- Hkey. eauto.
Qed.

Lemma terminal_index_key_witness :
  "index.c.e.b" = ("index." ++ "c.e.b")%string
  /\ exists rows,
       explode_field
         (MkMessage
            [("c", FMessage (MkMessage [("e", FMessage Scenario.record0)]))])
         "c.e.b" "index" = Ok rows
       /\ map (dict_get ("index." ++ "c.e.b")%string) rows
          = map (fun i => Some (VInt i)) (seq 0 2).
Proof.
  apply (terminal_index_key
           (MkMessage
              [("c", FMessage (MkMessage [("e", FMessage Scenario.record0)]))])
           "c.e.b" "b" "index.c.e.b" (FRepScalar [SInt 10; SInt 20])).
  - reflexivity.
  - reflexivity.
  - eapply resolves_singular; [reflexivity | reflexivity|].
    eapply resolves_singular; [reflexivity | reflexivity|].
    apply (resolves_repeated Scenario.record0 "b" "index.c.e" "b" "" "");
      reflexivity.
Defined.

(** ** Missing columns and empty paths *)

(** X17: records need not give the same columns: in the table of
    [proto_normalize], the row of a record has no value (a null) under every
    column that the record alone would not give. *)
Theorem proto_normalize_missing_cell
  (records : list Message) (i : nat) (m : Message) (c : string)
  (Hrecord : nth_error records i = Some m)
  (Hcolumn : ~ In c (Pandas.columns (proto_normalize [m]))) :
  exists r,
    nth_error (Pandas.rows (proto_normalize records)) i = Some r
    /\ Pandas.cell (proto_normalize records) r c = None.
Proof.
  destruct (json_normalize_row (map proto_to_dict records) i
              (proto_to_dict m)) as (r & Hr & _ & Hc).
  { now apply map_nth_error. }
  exists r. split; [exact Hr|].
  change (Pandas.cell (proto_normalize records) r c)
    with (Pandas.cell (Pandas.json_normalize (map proto_to_dict records)) r c).
  rewrite Hc. apply dict_get_None. intros Hin. apply Hcolumn.
  unfold proto_normalize, Pandas.json_normalize. simpl.
  apply union_keys_In. eexists. split; [now left | exact Hin].
Qed.

Lemma proto_normalize_missing_cell_witness :
  exists r,
    nth_error
      (Pandas.rows
         (proto_normalize
            [Scenario.record0; MkMessage [("z", FScalar (SInt 7))]])) 1
    = Some r
    /\ Pandas.cell
         (proto_normalize
            [Scenario.record0; MkMessage [("z", FScalar (SInt 7))]]) r "a"
       = None.
Proof.
  apply (proto_normalize_missing_cell
           [Scenario.record0; MkMessage [("z", FScalar (SInt 7))]] 1
           (MkMessage [("z", FScalar (SInt 7))]) "a").
  - reflexivity.
  - simpl. intros [H|[]]. discriminate.
Defined.

(** X18: the empty path, and every path that starts with a dot, names no
    field: on a well-formed first record [proto_explode] raises the exception
    of the failed lookup of the empty name. *)
Theorem empty_segment_raises
  (m : Message) (after : list Message) (path : string)
  (Hwf : wf_message m = true)
  (Hsegment : fst (fst (partition path)) = "") :
  proto_explode (m :: after) path = Raise (AttributeError "").
Proof.
  assert (Hnone : getattr m "" = None).
  { destruct (getattr m "") as [v|] eqn:E; [|reflexivity].
    now apply (wf_getattr_nonempty _ _ _ Hwf) in E. }
  assert (He : explode_field m path "index" = Raise (AttributeError "")).
  { rewrite explode_field_eq.
    destruct (partition path) as [[cur sep] rest]. simpl in Hsegment.
    subst cur. now rewrite Hnone. }
  unfold proto_explode, proto_explode_rows. simpl. now rewrite He.
Qed.

Lemma empty_segment_raises_witness :
  proto_explode [Scenario.record0; Scenario.record1] ""
  = Raise (AttributeError "").
Proof.
  apply (empty_segment_raises Scenario.record0 [Scenario.record1] "");
    reflexivity.
Defined.

(** * The exploded table, row by row *)

(** ** Lists in step *)





(** ** The levels of the row key *)



(** ** Positions that survive the flattening *)

Lemma nested_columns_In d k :
  In k (nested_columns d) <->
  exists k0 sub,
    In (k0, VDict sub) d
    /\ In k (dict_keys (Pandas.normalise_json (VDict sub) k0 [])).
Proof.
  unfold nested_columns. rewrite normalise_json_dict_keys. split.
  - intros ([k0 v] & Hin & Hk). apply filter_In in Hin as [Hin Hv].
    destruct v as [s|sub]; [discriminate|]. eauto.
  - intros (k0 & sub & Hin & Hk). exists (k0, VDict sub).
    split; [|exact Hk]. apply filter_In. auto.
Qed.

(** [{**top_dict_, **nested_dict_}]: a scalar at the top of a row is the
    value of its column, unless a nested dictionary of the row is flattened to
    a column of the same name. *)
Lemma flattened_scalar d k s :
  dict_get k d = Some (VScalar s) ->
  ~ In k (nested_columns d) ->
  dict_get k (Pandas.normalise_json_ordered d) = Some s.
Proof.
  intros Hk Hfree. unfold Pandas.normalise_json_ordered.
  rewrite fold_dict_set_get_other; [now apply top_dict_get | exact Hfree].
Qed.







(** ** From the rows built to the rows of the table *)




(** ** The rows of a record in the table *)









(** ** A repeated field at the end of the path *)





(** ** A repeated field without elements *)




(** ** Two repetition levels in the table *)






(** ** An index key that meets a nested field *)

(** C10: a position that does not reach the table.  For the two items of
    [Scenario.order] the loop builds rows that hold 0 and 1 under the index
    key "index.items", and the field [index] of the item as a nested
    dictionary; the table assembly flattens that dictionary to the column
    "index.items" after the positions were stamped, and its values 77 and 88
    take the place of the positions in the row key.  In the same way the
    positions 0, 0 and 1 that [explode_repeated] stamps on the rows of
    [Scenario.parcel_order] give way to 55, 66 and 77. *)
Theorem nested_data_replaces_position :
  proto_explode_rows [Scenario.order] "items"
  = Ok [[("index", VDict [("items", VScalar (SInt 77))]);
         ("index.items", VInt 0); ("index.", VInt 0)];
        [("index", VDict [("items", VScalar (SInt 88))]);
         ("index.items", VInt 1); ("index.", VInt 0)]]
  /\ proto_explode [Scenario.order] "items"
     = Ok (Pandas.mkFrame [Some "index"; Some "index.items"] []
             [Pandas.mkRow [Some (SInt 0); Some (SInt 77)] [];
              Pandas.mkRow [Some (SInt 0); Some (SInt 88)] []])
  /\ proto_explode [Scenario.parcel_order] "parcels.items"
     = Ok (Pandas.mkFrame
             [Some "index"; Some "index.parcels"; Some "index.parcels.items"]
             []
             [Pandas.mkRow [Some (SInt 0); Some (SInt 55); Some (SInt 0)] [];
              Pandas.mkRow [Some (SInt 0); Some (SInt 66); Some (SInt 1)] [];
              Pandas.mkRow [Some (SInt 0); Some (SInt 77); Some (SInt 0)] []]).
Proof. repeat split; vm_compute; reflexivity. Qed.

(** ** The cells of [proto_normalize] *)

Lemma record_nested_column_dot m k :
  wf_message m = true ->
  In k (nested_columns (proto_to_dict m)) -> has_dot k = true.
Proof.
  intros Hwf Hk. apply nested_columns_In in Hk as (k0 & sub & Hin & Hk).
  apply proto_to_dict_entries in Hin
    as [(s & [=] & _)|(nested & [= ->] & Hin)].
  apply normalise_json_nested in Hk as (b & -> & _).
  - rewrite has_dot_append. simpl. apply orb_true_r.
  - eapply field_name_nonempty; eauto.
  - intros k' v'. apply proto_to_dict_key_nonempty. eapply wf_nested; eauto.
Qed.

Lemma record_scalar_cell m c s :
  wf_message m = true ->
  In (c, FScalar s) (fields m) ->
  has_dot c = false ->
  dict_get c (Pandas.normalise_json_ordered (proto_to_dict m)) = Some s.
Proof.
  intros Hwf Hin Hc. apply flattened_scalar.
  - now apply proto_to_dict_scalar_entry.
  - intros Hk. apply (record_nested_column_dot _ _ Hwf) in Hk. congruence.
Qed.

(** X12: [proto_normalize] copies the singular scalar fields verbatim: when
    every record of a sequence of well-formed records has a singular scalar
    field of the name [c], no row of the table is without a value under the
    column [c], and the row of a record holds the value of its field. *)
Theorem proto_normalize_scalar_cell
  (records : list Message) (i : nat) (m : Message) (c : string) (s : Scalar)
  (Hwf : Forall (fun m0 => wf_message m0 = true) records)
  (Hcolumn : Forall (fun m0 => exists s0, In (c, FScalar s0) (fields m0))
               records)
  (Hname : has_dot c = false)
  (Hrecord : nth_error records i = Some m)
  (Hfield : In (c, FScalar s) (fields m)) :
  Forall (fun r => Pandas.cell (proto_normalize records) r c <> None)
    (Pandas.rows (proto_normalize records))
  /\ exists r,
       nth_error (Pandas.rows (proto_normalize records)) i = Some r
       /\ Pandas.cell (proto_normalize records) r c = Some s.
Proof.
  rewrite Forall_forall in Hwf, Hcolumn.
  assert (Hrow : forall q m0 s0,
             nth_error records q = Some m0 ->
             In (c, FScalar s0) (fields m0) ->
             exists r,
               nth_error (Pandas.rows (proto_normalize records)) q = Some r
               /\ Pandas.cell (proto_normalize records) r c = Some s0).
  { intros q m0 s0 Hq Hs0.
    destruct (json_normalize_row (map proto_to_dict records) q
                (proto_to_dict m0)) as (r & Hr & _ & Hc).
    { now apply map_nth_error. }
    exists r. split; [exact Hr|].
    change (Pandas.cell (proto_normalize records) r c)
      with (Pandas.cell (Pandas.json_normalize (map proto_to_dict records))
              r c).
    rewrite Hc. apply record_scalar_cell; eauto using nth_error_In. }
  split; [|eauto].
  apply Forall_forall. intros r Hr.
  destruct (In_nth_error _ _ Hr) as [q Hq].
  assert (Hlt : q < List.length records).
  { rewrite <- (length_map proto_to_dict), <- json_normalize_length.
    apply nth_error_Some.
    change (Pandas.rows (proto_normalize records))
      with (Pandas.rows (Pandas.json_normalize (map proto_to_dict records)))
      in Hq.
    congruence. }
  destruct (nth_error records q) as [m0|] eqn:Hm0;
    [|apply nth_error_None in Hm0; lia].
  destruct (Hcolumn _ (nth_error_In _ _ Hm0)) as [s0 Hs0].
  destruct (Hrow _ _ _ Hm0 Hs0) as (r' & Hr' & Hcell).
  rewrite Hq in Hr'. injection Hr' as <-. congruence.
Qed.

Lemma proto_normalize_scalar_cell_witness :
  Forall
    (fun r =>
       Pandas.cell (proto_normalize [Scenario.record0; Scenario.record1]) r "a"
       <> None)
    (Pandas.rows (proto_normalize [Scenario.record0; Scenario.record1]))
  /\ exists r,
       nth_error
         (Pandas.rows (proto_normalize [Scenario.record0; Scenario.record1]))
         1 = Some r
       /\ Pandas.cell (proto_normalize [Scenario.record0; Scenario.record1])
            r "a" = Some (SInt 2).
Proof.
  apply (proto_normalize_scalar_cell [Scenario.record0; Scenario.record1] 1
           Scenario.record1 "a" (SInt 2)).
  - repeat constructor.
  - repeat constructor; eexists; simpl; eauto.
  - reflexivity.
  - reflexivity.
  - simpl. auto.
Defined.
